(** * Persona-driven document sectioning and ranking (backend/main_round1b.py)

    A shallow embedding of the pure core of [main_round1b.py]:
    [extract_keywords], [extract_document_sections], [calculate_relevance]
    and the ranking / refinement loop of [process_single_test_case],
    together with the properties the specification states about them.

    Modelling conventions.
    - Python [str] values are lists of characters over the code points
      0..255; the character classes ([str.isspace], [str.isalpha], the
      regex classes [\w] and [\s], [str.lower]) follow CPython's Unicode
      tables on that range.
    - Python [float] coordinates and scores are exact rationals ([Q]);
      comparisons are the rational ones.
    - Python [int] page numbers and counts are [Z].
    - [list.sort] / [sorted] are stable; they are modelled by a stable
      insertion sort, which computes the same list for any key order that
      is a strict weak order.
    - The PDF layer ([fitz], [pdf_parser]) and the sentence-transformer
      model are inputs: a document is the list of its pages' block
      dictionaries plus the outline, a model is a pair of fallible
      functions. *)

From Stdlib Require Import Ascii String.
From Stdlib Require Import List ZArith QArith Bool Arith Lia Lqa.
From Stdlib Require Import Permutation Sorted.
Import ListNotations.
Close Scope Q_scope.

Set Implicit Arguments.

(* ================================================================== *)
(** * Python strings *)

Module Text.

Definition str := list ascii.

(** A string literal. *)
Definition lit (s : string) : str := list_ascii_of_string s.

Definition code (c : ascii) : N := N_of_ascii c.

Definition in_range (lo hi : N) (c : ascii) : bool :=
  ((lo <=? code c) && (code c <=? hi))%N.

Definition is_code (n : N) (c : ascii) : bool := (code c =? n)%N.

(** [str.isspace] on one character; also the regex class [\s]. *)
Definition is_space (c : ascii) : bool :=
  in_range 9 13 c || in_range 28 32 c || is_code 133 c || is_code 160 c.

(** [str.isalpha] on one character. *)
Definition is_alpha (c : ascii) : bool :=
  in_range 65 90 c || in_range 97 122 c
  || is_code 170 c || is_code 181 c || is_code 186 c
  || in_range 192 214 c || in_range 216 246 c || in_range 248 255 c.

(** [str.isalnum] on one character. *)
Definition is_alnum (c : ascii) : bool :=
  is_alpha c || in_range 48 57 c
  || is_code 178 c || is_code 179 c || is_code 185 c || in_range 188 190 c.

(** The regex class [\w]: alphanumeric or underscore. *)
Definition is_word (c : ascii) : bool := is_alnum c || is_code 95 c.

Definition lower_char (c : ascii) : ascii :=
  if in_range 65 90 c || in_range 192 214 c || in_range 216 222 c
  then ascii_of_N (code c + 32) else c.

(** [s.lower()] *)
Definition lower (s : str) : str := map lower_char s.

Definition str_eq_dec : forall a b : str, {a = b} + {a <> b} :=
  list_eq_dec ascii_dec.

Definition str_eqb (a b : str) : bool :=
  if str_eq_dec a b then true else false.

(** [x in l] for a list of strings. *)
Definition mem (x : str) (l : list str) : bool := existsb (str_eqb x) l.

Definition nonempty {A} (l : list A) : bool :=
  match l with [] => false | _ :: _ => true end.

(** [s.isalpha()]: at least one character and all alphabetic. *)
Definition isalpha (s : str) : bool := nonempty s && forallb is_alpha s.

(** [sep.join(parts)] *)
Fixpoint join (sep : str) (parts : list str) : str :=
  match parts with
  | [] => []
  | [p] => p
  | p :: rest => p ++ sep ++ join sep rest
  end.

Fixpoint lstrip (s : str) : str :=
  match s with
  | c :: s' => if is_space c then lstrip s' else s
  | [] => []
  end.

Definition rstrip (s : str) : str := rev (lstrip (rev s)).

(** [s.strip()] *)
Definition strip (s : str) : str := rstrip (lstrip s).

Definition cons_head (c : ascii) (ps : list str) : list str :=
  match ps with
  | h :: t => (c :: h) :: t
  | [] => [[c]]
  end.

(** The pieces of [s] between the characters satisfying [sep],
    empty pieces included. *)
Fixpoint split_on (sep : ascii -> bool) (s : str) : list str :=
  match s with
  | [] => [[]]
  | c :: s' => if sep c then [] :: split_on sep s'
               else cons_head c (split_on sep s')
  end.

(** The maximal non-empty runs of characters outside [sep]. *)
Definition runs (sep : ascii -> bool) (s : str) : list str :=
  filter nonempty (split_on sep s).

(** [s.split()]: the maximal runs of non-whitespace characters. *)
Definition split_ws (s : str) : list str := runs is_space s.

(** [re.findall(r'\b\w+\b', s)]: a match starts at a word boundary,
    is greedy and must end at a word boundary, so the matches are
    the maximal runs of word characters. *)
Definition findall_words (s : str) : list str :=
  runs (fun c => negb (is_word c)) s.

(** [re.findall(r'\b\w{3,15}\b', s)]: inside a run of word characters
    there is no word boundary, so a run matches as a whole or not at
    all: the matches are the maximal runs of 3 to 15 word characters. *)
Definition findall_words_3_15 (s : str) : list str :=
  filter (fun w => (3 <=? length w) && (length w <=? 15)) (findall_words s).

Fixpoint prefixb (p s : str) : bool :=
  match p, s with
  | [], _ => true
  | a :: p', b :: s' => Ascii.eqb a b && prefixb p' s'
  | _ :: _, [] => false
  end.

(** [sub in s]: substring test. *)
Fixpoint contains (sub s : str) : bool :=
  prefixb sub s ||
  match s with
  | [] => false
  | _ :: s' => contains sub s'
  end.

(** The character class [[.!?]]. *)
Definition is_terminal (c : ascii) : bool :=
  is_code 46 c || is_code 33 c || is_code 63 c.

Definition head_is_space (s : str) : bool :=
  match s with c :: _ => is_space c | [] => false end.

(** [re.split(r'(?<=[.!?])\s+', s)].  A separator is a maximal run of
    whitespace that directly follows one of [.], [!], [?]; the result
    is the list of pieces between separators, a trailing empty piece
    included.  [skipping] is true while the scan is inside a
    separator. *)
Fixpoint split_after_terminal (skipping : bool) (s : str) : list str :=
  match s with
  | [] => [[]]
  | c :: s' =>
      if skipping && is_space c then split_after_terminal true s'
      else if is_terminal c && head_is_space s'
           then [c] :: split_after_terminal true s'
           else cons_head c (split_after_terminal false s')
  end.

Definition split_sentences (s : str) : list str :=
  split_after_terminal false s.

End Text.

Import Text.

(* ================================================================== *)
(** * Python's stable sort *)

Module PySort.
Section Sort.
Variable A : Type.
(** [lt a b]: the key of [a] is strictly smaller than the key of [b]. *)
Variable lt : A -> A -> bool.

(** [x] goes behind every element that is strictly smaller and in front
    of the first element that is not: equal keys keep their order. *)
Fixpoint insert (x : A) (l : list A) : list A :=
  match l with
  | [] => [x]
  | y :: l' => if lt y x then y :: insert x l' else x :: y :: l'
  end.

(** [l.sort(key=...)] / [sorted(l, key=...)]. *)
Definition sort (l : list A) : list A := fold_right insert [] l.

End Sort.

(** The order of the output of [sort lt] on an input that [S] relates
    front to back: [a] is in front of [b] when its key is smaller, or the
    keys are equal and [S a b]. *)
Definition lex {A} (lt : A -> A -> bool) (S : A -> A -> Prop) (a b : A) : Prop :=
  lt b a = false /\ (lt a b = true \/ S a b).

(** [l.sort(key=..., reverse=True)]: descending, and still stable (equal
    keys keep their original order). *)
Definition sort_reverse {A} (lt : A -> A -> bool) (l : list A) : list A :=
  sort (fun a b => lt b a) l.

End PySort.

(* ================================================================== *)
(** * Numbers *)

Definition Qltb (a b : Q) : bool := (Qnum a * QDen b <? Qnum b * QDen a)%Z.

Definition Qsum (l : list Q) : Q := fold_right Qplus 0%Q l.

(** [np.mean(l)] for a non-empty list. *)
Definition np_mean (l : list Q) : Q := (Qsum l / inject_Z (Z.of_nat (length l)))%Q.

(* ================================================================== *)
(** * Layout primitives supplied by the PDF layer *)

(** A bounding box [(x0, y0, x1, y1)]: [bbox[1]] is the top, [bbox[3]]
    the bottom. *)
Record bbox := mk_bbox { x0 : Q; y0 : Q; x1 : Q; y1 : Q }.

(** A line of a text block: its box and the texts of its spans. *)
Record line := mk_line { line_bbox : bbox; spans : list str }.

(** A block of [page.get_text("dict")["blocks"]]; type 0 is text. *)
Record block := mk_block { block_type : Z; lines : list line; block_bbox : bbox }.

Definition page := list block.

(** An entry of the outline returned by [extract_outline_from_pdf]. *)
Record heading := mk_heading { h_text : str; h_level : str; h_page : Z }.

(** An entry of [all_content_items]: the ["type"] key is the constructor. *)
Inductive item :=
| TextItem (text : str) (pg : Z) (bb : bbox)
| HeadingMarker (text : str) (level : str) (pg : Z).

Definition item_page (it : item) : Z :=
  match it with TextItem _ p _ => p | HeadingMarker _ _ p => p end.

(** Heading markers carry the placeholder box [(0,0,0,0)]. *)
Definition item_bbox (it : item) : bbox :=
  match it with
  | TextItem _ _ b => b
  | HeadingMarker _ _ _ => mk_bbox 0 0 0 0
  end.

Definition is_heading (it : item) : bool :=
  match it with HeadingMarker _ _ _ => true | TextItem _ _ _ => false end.

Definition is_text (it : item) : bool := negb (is_heading it).

(** A record appended to [doc_sections]. *)
Record section := mk_section {
  document : str;
  page_number : Z;
  section_title : str;
  section_text : str;
  level : str
}.

(* ================================================================== *)
(** * extract_document_sections *)

Definition text_blocks (pg : page) : list block :=
  filter (fun b => (block_type b =? 0)%Z) pg.

Definition line_heights (pg : page) : list Q :=
  flat_map (fun b => map (fun l => (y1 (line_bbox l) - y0 (line_bbox l))%Q) (lines b))
           (text_blocks pg).

(** ["".join(span["text"] for line in lines for span in spans)] *)
Definition block_text (b : block) : str := concat (flat_map spans (lines b)).

(** The items one page contributes; [page_num] is the 0-based index. *)
Definition page_items (page_num : nat) (pg : page) : list item :=
  flat_map (fun b =>
              let t := strip (block_text b) in
              if nonempty t then [TextItem t (Z.of_nat page_num + 1) (block_bbox b)]
              else [])
           (text_blocks pg).

(** One round of the page loop on [avg_line_height]. *)
Definition update_avg (avg : Q) (pg : page) : Q :=
  let lh := line_heights pg in
  if nonempty lh then np_mean lh else avg.

(** The page loop: the final [avg_line_height] and the text items. *)
Fixpoint page_loop (page_num : nat) (avg : Q) (pages : list page) : Q * list item :=
  match pages with
  | [] => (avg, [])
  | pg :: rest =>
      let (a, its) := page_loop (S page_num) (update_avg avg pg) rest in
      (a, page_items page_num pg ++ its)
  end.

Definition default_line_height : Q := 12.

Definition heading_items (outline : list heading) : list item :=
  map (fun h => HeadingMarker (h_text h) (h_level h) (h_page h)) outline.

(** The sort key [(x["page"], x["bbox"][1])], compared as tuples. *)
Definition item_lt (a b : item) : bool :=
  (item_page a <? item_page b)%Z
  || ((item_page a =? item_page b)%Z && Qltb (y0 (item_bbox a)) (y0 (item_bbox b))).

(** [all_content_items] after the sort. *)
Definition all_content_items (pages : list page) (outline : list heading) : list item :=
  PySort.sort item_lt (snd (page_loop 0 default_line_height pages) ++ heading_items outline).

(** [gap_threshold], computed once after the page loop. *)
Definition gap_threshold (pages : list page) : Q :=
  (fst (page_loop 0 default_line_height pages) * 2.5)%Q.

(** The four loop variables of the sectioning logic. *)
Record sec_state := mk_state {
  current_section_title : str;
  current_section_level : str;
  current_section_text_parts : list str;
  current_section_start_page : Z
}.

Definition initial_state : sec_state :=
  mk_state (lit "Document Start") (lit "H0") [] 1.

(** Condition 2: a large vertical gap to the previous text block of the
    same page. *)
Definition large_gap (thr : Q) (prev : option item) (it : item) : bool :=
  match prev, it with
  | Some (TextItem _ ppg pbb), TextItem _ pg bb =>
      (ppg =? pg)%Z && Qltb thr (y0 bb - y1 pbb)%Q
  | _, _ => false
  end.

(** [is_section_break] for the item that follows [prev] ([None] at
    index 0). *)
Definition is_section_break (thr : Q) (prev : option item) (it : item) : bool :=
  is_heading it || large_gap thr prev it.

(** The separator ["\n"]. *)
Definition newline : str := ["010"%char].

(** The record built from the loop variables at a flush. *)
Definition flush_section (name : str) (st : sec_state) : section :=
  mk_section name (current_section_start_page st) (current_section_title st)
             (join newline (current_section_text_parts st))
             (current_section_level st).

(** The loop variables after one item; [brk] is [is_section_break]. *)
Definition next_state (brk : bool) (st : sec_state) (it : item) : sec_state :=
  let parts := if brk && nonempty (current_section_text_parts st)
               then [] else current_section_text_parts st in
  match it with
  | HeadingMarker t l p => mk_state t l parts p
  | TextItem t p _ =>
      if brk
      then mk_state (lit "Content") (current_section_level st) (parts ++ [t]) p
      else mk_state (current_section_title st) (current_section_level st)
                    (parts ++ [t]) (current_section_start_page st)
  end.

(** The sectioning loop followed by the flush of the last section. *)
Fixpoint sectioning (name : str) (thr : Q) (prev : option item) (st : sec_state)
         (items : list item) : list section :=
  match items with
  | [] => if nonempty (current_section_text_parts st)
          then [flush_section name st] else []
  | it :: rest =>
      let brk := is_section_break thr prev it in
      (if brk && nonempty (current_section_text_parts st)
       then [flush_section name st] else [])
      ++ sectioning name thr (Some it) (next_state brk st it) rest
  end.

(** [extract_document_sections]: [name] is [pdf_path.name], [pages] the
    pages of the opened document, [outline] the extracted outline. *)
Definition extract_document_sections (name : str) (pages : list page)
           (outline : list heading) : list section :=
  sectioning name (gap_threshold pages) None initial_state
             (all_content_items pages outline).

(** The texts of the text items of a stream, in stream order. *)
Definition item_texts (items : list item) : list str :=
  flat_map (fun it => match it with TextItem t _ _ => [t] | HeadingMarker _ _ _ => [] end)
           items.

(** Every item of [body] continues the section of its predecessor:
    none is a section break. *)
Fixpoint quiet (thr : Q) (prev : option item) (body : list item) : bool :=
  match body with
  | [] => true
  | it :: rest => negb (is_section_break thr prev it) && quiet thr (Some it) rest
  end.

(** The item in front of the position behind [l]. *)
Fixpoint last_item (prev : option item) (l : list item) : option item :=
  match l with
  | [] => prev
  | it :: rest => last_item (Some it) rest
  end.

(** The stream ends here or goes on with a section break. *)
Definition starts_with_break (thr : Q) (prev : option item) (rest : list item) : bool :=
  match rest with
  | [] => true
  | it :: _ => is_section_break thr prev it
  end.

Definition starts_with_heading (rest : list item) : bool :=
  match rest with
  | [] => true
  | it :: _ => is_heading it
  end.

(** The value of [avg_line_height] while the page with 0-based index [k]
    is processed: the mean line height of that page, or the value carried
    over from the pages before it. *)
Definition avg_line_height_at (pages : list page) (k : nat) : Q :=
  fst (page_loop 0 default_line_height (firstn (S k) pages)).

(* ================================================================== *)
(** * extract_keywords *)

(** [STOP_WORDS]: the words of the source's literal, split on whitespace. *)
Definition STOP_WORDS : list str := split_ws (lit "
a about above after again against all am an and any are aren't as at be because
been before being below between both but by can't cannot could couldn't did didn't
do does doesn't doing don't down during each few for from further had hadn't has
hasn't have haven't having he he'd he'll he's her here here's hers herself him
himself his how how's i i'd i'll i'm i've if in into is isn't it it's its itself
let's me more most mustn't my myself no nor not of off on once only or other
ought our ours ourselves out over own same shan't she she'd she'll she's should
shouldn't so some such than that that's the their theirs them themselves then there
there's these they they'd they'll they're they've this those through to too under
until up very was wasn't we we'd we'll we're we've were weren't what what's when
when's where where's which while who who's whom why why's with won't would
wouldn't you you'd you'll you're you've your yours yourself yourselves
").

(** [collections.Counter]: a dictionary, so the keys stay in the order of
    their first insertion. *)
Fixpoint counter_add (w : str) (c : list (str * nat)) : list (str * nat) :=
  match c with
  | [] => [(w, 1)]
  | (k, v) :: c' => if str_eqb k w then (k, S v) :: c'
                    else (k, v) :: counter_add w c'
  end.

Definition Counter (ws : list str) : list (str * nat) :=
  fold_left (fun c w => counter_add w c) ws [].

(** [Counter.most_common(n)] is [heapq.nlargest(n, items, key=count)],
    which is [sorted(items, key=count, reverse=True)[:n]] and gives the
    empty list for [n <= 0]. *)
Definition most_common (n : Z) (c : list (str * nat)) : list (str * nat) :=
  firstn (Z.to_nat n) (PySort.sort_reverse (fun a b => snd a <? snd b) c).

(** The word list after the stop-word and [isalpha] filter. *)
Definition keyword_candidates (text : str) : list str :=
  filter (fun word => isalpha word && negb (mem word STOP_WORDS))
         (findall_words_3_15 (lower text)).

Definition extract_keywords (text : str) (num_keywords : Z) : list str :=
  map fst (most_common num_keywords (Counter (keyword_candidates text))).

(* ================================================================== *)
(** * Exceptions *)

Inductive exn := Exception (msg : str).

Inductive result (A : Type) :=
| Ok (a : A)
| Raise (e : exn).
Arguments Ok {A} a.
Arguments Raise {A} e.

Definition bind {A B} (m : result A) (k : A -> result B) : result B :=
  match m with Ok a => k a | Raise e => Raise e end.

(** [try: body  except Exception as e: handler e] *)
Definition try_except {A} (body : result A) (handler : exn -> result A) : result A :=
  match body with Ok a => Ok a | Raise e => handler e end.

Notation "x <- m ;; k" := (bind m (fun x => k))
  (at level 61, m at next level, right associativity).

(* ================================================================== *)
(** * calculate_relevance *)

(** [persona_info]: the keys the scorer reads; [None] is a missing key. *)
Record persona := mk_persona {
  description : option str;
  role : option str;
  focus_areas : option str
}.

(** Truth value of [persona_info.get(key)]. *)
Definition truthy (o : option str) : bool :=
  match o with Some s => nonempty s | None => false end.

Definition get (o : option str) : str :=
  match o with Some s => s | None => [] end.

Definition tensor := list Q.

(** The sentence-transformer model: [encode] and
    [util.pytorch_cos_sim(a, b).item()], either of which may raise. *)
Record nlp_model := mk_model {
  encode : str -> result tensor;
  cos_sim : tensor -> tensor -> result Q
}.

(** The set [all_keywords]. *)
Definition all_keywords (persona_info : persona) (job_text : str) : list str :=
  nodup str_eq_dec
        (findall_words (lower job_text)
         ++ (if truthy (focus_areas persona_info)
             then findall_words (lower (get (focus_areas persona_info)))
             else [])).

(** The loop [for kw in all_keywords: if kw in text_tokens_lower: score += 2.0]. *)
Definition keyword_loop (kws : list str) (text_tokens_lower : list str) (score : Q) : Q :=
  fold_left (fun sc kw => if mem kw text_tokens_lower then (sc + 2)%Q else sc) kws score.

Definition combined_query (persona_info : persona) (job_text : str) : str :=
  join (lit ". ")
       ([job_text]
        ++ (if truthy (description persona_info)
            then [lit "Persona description: " ++ get (description persona_info)] else [])
        ++ (if truthy (role persona_info)
            then [lit "Role: " ++ get (role persona_info)] else [])
        ++ (if truthy (focus_areas persona_info)
            then [lit "Focus areas: " ++ get (focus_areas persona_info)] else [])).

(** The body of the [try] block: the score after the embedding term. *)
Definition embedding_step (m : nlp_model) (text : str) (persona_info : persona)
           (job_text : str) (score : Q) : result Q :=
  query_embedding <- encode m (combined_query persona_info job_text) ;;
  text_embedding <- encode m text ;;
  cosine_score <- cos_sim m query_embedding text_embedding ;;
  Ok (score + ((cosine_score + 1) / 2) * 10)%Q.

(** The condition of the short-section bonus. *)
Definition short_with_keyword (text : str) (kws : list str) : bool :=
  (length (split_ws text) <? 10) && existsb (fun kw => contains kw (lower text)) kws.

Definition calculate_relevance (text : str) (persona_info : persona) (job_text : str)
           (model : option nlp_model) : result Q :=
  let kws := all_keywords persona_info job_text in
  let score := keyword_loop kws (findall_words (lower text)) 0 in
  score <- match model with
           | Some m => try_except (embedding_step m text persona_info job_text score)
                                  (fun _ => Ok score)
           | None => Ok score
           end ;;
  Ok (if short_with_keyword text kws then (score + 1)%Q else score).

(* ================================================================== *)
(** * process_single_test_case: scoring, ranking, refinement *)

(** An entry of [ranked_sections]; [importance_rank] holds the score. *)
Record ranked_section := mk_ranked {
  r_document : str;
  r_page_number : Z;
  r_section_title : str;
  r_importance_rank : Q;
  r_section_text_raw : str;
  r_keywords : list str
}.

(** An entry of [final_extracted_sections_output]. *)
Record output_section := mk_output {
  o_document : str;
  o_page_number : Z;
  o_section_title : str;
  o_importance_rank : Z;
  o_section_text_raw : str;
  o_refined_text : str;
  o_keywords : list str
}.

(** The scoring loop over [all_extracted_sections]; the embedding
    computed for the similarity index is outside any [try]. *)
Fixpoint score_sections (persona_info : persona) (job_to_be_done : str)
         (semantic_model : option nlp_model) (sections : list section)
  : result (list ranked_section) :=
  match sections with
  | [] => Ok []
  | s :: rest =>
      relevance_score <- calculate_relevance (section_text s) persona_info
                                             job_to_be_done semantic_model ;;
      _ <- match semantic_model with
           | Some m => encode m (section_text s)
           | None => Ok []
           end ;;
      let keywords := extract_keywords (section_text s) 5 in
      ranked <- score_sections persona_info job_to_be_done semantic_model rest ;;
      Ok (mk_ranked (document s) (page_number s) (section_title s) relevance_score
                    (section_text s) keywords :: ranked)
  end.

(** [ranked_sections.sort(key=lambda x: x["importance_rank"], reverse=True)] *)
Definition sort_ranked (ranked : list ranked_section) : list ranked_section :=
  PySort.sort_reverse (fun a b => Qltb (r_importance_rank a) (r_importance_rank b)) ranked.

(** [" ".join(sentences[:min(3, len(sentences))])] *)
Definition refined_text (full_text : str) : str :=
  let sentences := split_sentences full_text in
  join (lit " ") (firstn (Nat.min 3 (length sentences)) sentences).

(** The output loop; [i] is the index [enumerate] is at. *)
Fixpoint final_output (i : nat) (ranked : list ranked_section) : list output_section :=
  match ranked with
  | [] => []
  | s :: rest =>
      mk_output (r_document s) (r_page_number s) (r_section_title s)
                (Z.of_nat i + 1) (r_section_text_raw s)
                (refined_text (r_section_text_raw s)) (r_keywords s)
      :: final_output (S i) rest
  end.

(** ["extracted_sections"] of the result, from [ranked_sections]. *)
Definition extracted_sections (ranked : list ranked_section) : list output_section :=
  final_output 0 (sort_ranked ranked).

(** A PDF file of the case: [pdf_file.name], the pages of the opened
    document and its outline. *)
Record pdf := mk_pdf {
  pdf_name : str;
  pdf_pages : list page;
  pdf_outline : list heading
}.

(** The section pipeline of [process_single_test_case]: from the loaded
    persona and job to the result object's ["extracted_sections"].
    [Ok None] is the skipped case without PDF files, [Raise] an exception
    of the scoring loop.  Reading the inputs and writing the index files
    and the output file are left out here: the whole function, with the
    exceptions of these steps, is [process_single_test_case_io]. *)
Definition process_single_test_case (persona_info : persona) (job_to_be_done : str)
           (semantic_model : option nlp_model) (pdf_files : list pdf)
  : result (option (list output_section)) :=
  if nonempty pdf_files then
    let all_extracted_sections :=
      flat_map (fun f => extract_document_sections (pdf_name f) (pdf_pages f)
                                                   (pdf_outline f))
               pdf_files in
    ranked <- score_sections persona_info job_to_be_done semantic_model
                             all_extracted_sections ;;
    Ok (Some (extracted_sections ranked))
  else Ok None.

(* ================================================================== *)
(** * Sample documents *)

Module Samples.

(** A text block with one line of the given height and one span. *)
Definition text_block (t : string) (top bottom height : Q) : block :=
  mk_block 0 [mk_line (mk_bbox 0 top 100 (top + height)) [lit t]]
           (mk_bbox 0 top 100 bottom).

(** Page 1: two blocks of line height 10, 30 units apart.
    Page 2: one block of line height 100. *)
Definition two_pages : list page :=
  [ [text_block "alpha" 0 10 10; text_block "beta" 40 50 10];
    [text_block "gamma" 0 100 100] ].

(** One page: two blocks of line height 10, 30 units apart. *)
Definition one_page : list page :=
  [ [text_block "alpha" 0 10 10; text_block "beta" 40 50 10] ].

(** One page with three blocks of line height 10; the third follows a
    gap of 40 units. *)
Definition three_blocks : list page :=
  [ [text_block "alpha" 5 15 10; text_block "beta" 20 30 10;
     text_block "gamma" 70 80 10] ].

Definition intro_outline : list heading :=
  [mk_heading (lit "Intro") (lit "H1") 1].

Definition name : str := lit "doc.pdf".

End Samples.

(** The output entry made from the entry [s] of the sorted list at
    0-based position [i]. *)
Definition output_of (i : nat) (s : ranked_section) : output_section :=
  mk_output (r_document s) (r_page_number s) (r_section_title s)
            (Z.of_nat i + 1) (r_section_text_raw s)
            (refined_text (r_section_text_raw s)) (r_keywords s).

Module ScoreSamples.

Definition scored (t : string) (score : Q) : ranked_section :=
  mk_ranked (lit "doc.pdf") 1 (lit t) score (lit t) [].

(** Five sections with the scores 3.0, 8.5, 1.0, 8.5, 4.0. *)
Definition five : list ranked_section :=
  [scored "s1" 3; scored "A" 8.5; scored "s3" 1; scored "B" 8.5; scored "s5" 4].

End ScoreSamples.

(* ================================================================== *)
(** * Shapes of sentence lists *)

(** The reversed key order of [sort_ranked]. *)
Definition score_lt_rev (a b : ranked_section) : bool :=
  Qltb (r_importance_rank b) (r_importance_rank a).

(** A piece without a separator inside: splitting gives it back. *)
Definition atomic (p : str) : Prop := split_after_terminal false p = [p].

(** The last character is one of [.], [!], [?]. *)
Fixpoint ends_terminal (p : str) : bool :=
  match p with
  | [] => false
  | [c] => is_terminal c
  | _ :: p' => ends_terminal p'
  end.

(** The pieces behind a separator: each starts with a character that is
    no whitespace (or is the empty last piece), and every piece but the
    last ends with a terminal character. *)
Fixpoint pieces_after_separator (ps : list str) : Prop :=
  match ps with
  | [] => False
  | [p] => atomic p /\ head_is_space p = false
  | p :: rest =>
      atomic p /\ head_is_space p = false /\ ends_terminal p = true
      /\ pieces_after_separator rest
  end.

(** The pieces of a whole text: the first may start with whitespace. *)
Definition pieces (ps : list str) : Prop :=
  match ps with
  | [] => False
  | [p] => atomic p
  | p :: rest => atomic p /\ ends_terminal p = true /\ pieces_after_separator rest
  end.

(* ================================================================== *)
(** * Frequencies and first encounters *)

(** The position of the first occurrence of [w] in [ws]. *)
Fixpoint first_index (w : str) (ws : list str) : nat :=
  match ws with
  | [] => 0
  | x :: rest => if str_eqb x w then 0 else S (first_index w rest)
  end.

(** The number of occurrences of [w] in [ws]. *)
Definition frequency (w : str) (ws : list str) : nat := count_occ str_eq_dec ws w.

(** [a] is ahead of [b] in the keyword order: more frequent, or equally
    frequent and met first. *)
Definition ahead (ws : list str) (a b : str) : Prop :=
  frequency b ws <= frequency a ws
  /\ (frequency a ws = frequency b ws -> first_index a ws < first_index b ws).

(** The count stored for [k] in a counter, 0 when there is none. *)
Fixpoint lookup (k : str) (c : list (str * nat)) : nat :=
  match c with
  | [] => 0
  | (k', v) :: c' => if str_eqb k' k then v else lookup k c'
  end.

(** The key order of [most_common] read backwards: [a] has the higher
    count. *)
Definition count_lt_rev (a b : str * nat) : bool := snd b <? snd a.

(* ================================================================== *)
(** * The terms of the relevance score *)

(** The keywords that occur among the tokens of the section text. *)
Definition matching_keywords (kws text_tokens : list str) : list str :=
  filter (fun kw => mem kw text_tokens) kws.

(** The number of query keywords that are exact token matches. *)
Definition matches (text : str) (persona_info : persona) (job_text : str) : nat :=
  length (matching_keywords (all_keywords persona_info job_text)
                            (findall_words (lower text))).

(** The score after the keyword loop. *)
Definition keyword_term (text : str) (persona_info : persona) (job_text : str) : Q :=
  keyword_loop (all_keywords persona_info job_text) (findall_words (lower text)) 0.

(** What the embedding step adds: [normalized_cosine * 10.0], or nothing
    when there is no model or the step raises. *)
Definition embedding_contribution (model : option nlp_model) (text : str)
           (persona_info : persona) (job_text : str) : Q :=
  match model with
  | Some m => match embedding_step m text persona_info job_text 0 with
              | Ok v => v
              | Raise _ => 0
              end
  | None => 0
  end.

(** The bonus of a short section that contains a keyword. *)
Definition short_bonus (text : str) (persona_info : persona) (job_text : str) : Q :=
  if short_with_keyword text (all_keywords persona_info job_text) then 1 else 0.

Module ModelSamples.

(** A model whose encoder is unavailable. *)
Definition broken_model : nlp_model :=
  mk_model (fun _ => Raise (Exception (lit "model unavailable")))
           (fun _ _ => Ok 0%Q).

(** A model that embeds every text as the same vector. *)
Definition constant_model : nlp_model :=
  mk_model (fun _ => Ok [1%Q]) (fun _ _ => Ok 1%Q).

Definition nobody : persona := mk_persona None None None.

End ModelSamples.

(* ================================================================== *)
(** * Predicates on items and sections *)

(** A text item never carries an empty text. *)
Definition text_nonempty (it : item) : Prop :=
  match it with TextItem t _ _ => t <> [] | HeadingMarker _ _ _ => True end.

(** Text items are on the 1-based pages of the document. *)
Definition text_page_positive (it : item) : Prop :=
  match it with TextItem _ p _ => (1 <= p)%Z | HeadingMarker _ _ p => True end.

(** [t] is the non-empty trimmed text of a text block of [pages]. *)
Definition trimmed_block_text (pages : list page) (t : str) : Prop :=
  t <> []
  /\ exists pg b, In pg pages /\ In b (text_blocks pg) /\ t = strip (block_text b).

Definition pages_from (lo : Z) (l : list section) : Prop :=
  Forall (fun s => (lo <= page_number s)%Z) l.

Definition page_sorted (l : list section) : Prop :=
  StronglySorted (fun a b => (page_number a <= page_number b)%Z) l.

(* ================================================================== *)
(** * Further notions on documents and streams *)

(** The last page with at least one text line: the page whose mean line
    height [avg_line_height] holds when the page loop ends. *)
Fixpoint last_page_with_lines (pages : list page) : option page :=
  match pages with
  | [] => None
  | pg :: rest =>
      match last_page_with_lines rest with
      | Some p => Some p
      | None => if nonempty (line_heights pg) then Some pg else None
      end
  end.

(** Neither the first nor the last character is whitespace. *)
Definition trimmed_ends (s : str) : Prop :=
  head_is_space s = false /\ head_is_space (rev s) = false.

(** The order of the sort key [(page, bbox[1])]: [a] may stand in front
    of [b]. *)
Definition key_le (a b : item) : Prop :=
  (item_page a < item_page b)%Z
  \/ (item_page a = item_page b /\ (y0 (item_bbox a) <= y0 (item_bbox b))%Q).

(** The fields of an entry that the ranking carries over unchanged. *)
Definition ranked_fields (s : ranked_section) : str * Z * str * str * list str :=
  (r_document s, r_page_number s, r_section_title s, r_section_text_raw s, r_keywords s).

Definition output_fields (o : output_section) : str * Z * str * str * list str :=
  (o_document o, o_page_number o, o_section_title o, o_section_text_raw o, o_keywords o).

(** [all_extracted_sections]: the sections of the files, file after
    file. *)
Definition all_extracted_sections (pdf_files : list pdf) : list section :=
  flat_map (fun f => extract_document_sections (pdf_name f) (pdf_pages f) (pdf_outline f))
           pdf_files.

(** Some [.], [!] or [?] of the text is followed by whitespace. *)
Fixpoint has_sentence_boundary (t : str) : bool :=
  match t with
  | [] => false
  | c :: t' => (is_terminal c && head_is_space t') || has_sentence_boundary t'
  end.

(** The text without its whitespace. *)
Definition without_spaces (s : str) : str := filter (fun c => negb (is_space c)) s.

(* ================================================================== *)
(** * load_persona_and_job *)

(** What the function reads of a case directory: its path, the parsed
    content of [persona_definition.json] ([None]: no such file; [Some r]:
    the outcome of [json.load]), and the contents of
    [persona_definition.txt] and [job_to_be_done.txt], when they exist. *)
Record case_dir := mk_case_dir {
  dir_path : str;
  persona_definition_json : option (result persona);
  persona_definition_txt : option str;
  job_to_be_done_txt : option str
}.

Definition FileNotFoundError (msg : str) : exn := Exception msg.

Definition load_persona_and_job (input_case_dir : case_dir) : result (persona * str) :=
  persona <- match persona_definition_json input_case_dir with
             | Some parsed => parsed
             | None =>
                 match persona_definition_txt input_case_dir with
                 | Some content =>
                     Ok (mk_persona (Some (strip content)) (Some (lit "Unspecified Role"))
                                    (Some []))
                 | None =>
                     Raise (FileNotFoundError
                              (lit "Neither persona_definition.json nor persona_definition.txt found in "
                               ++ dir_path input_case_dir))
                 end
             end ;;
  match job_to_be_done_txt input_case_dir with
  | Some content => Ok (persona, strip content)
  | None => Raise (FileNotFoundError (lit "job_to_be_done.txt not found in "
                                      ++ dir_path input_case_dir))
  end.

(* ================================================================== *)
(** * process_single_test_case, with its inputs and outputs *)

(** The scoring loop with both lists it fills: [ranked_sections] and
    [all_embeddings]. *)
Fixpoint scoring_loop (persona_info : persona) (job_to_be_done : str)
         (semantic_model : option nlp_model) (sections : list section)
  : result (list ranked_section * list tensor) :=
  match sections with
  | [] => Ok ([], [])
  | s :: rest =>
      relevance_score <- calculate_relevance (section_text s) persona_info
                                             job_to_be_done semantic_model ;;
      embedding <- match semantic_model with
                   | Some m => e <- encode m (section_text s) ;; Ok [e]
                   | None => Ok []
                   end ;;
      let keywords := extract_keywords (section_text s) 5 in
      r <- scoring_loop persona_info job_to_be_done semantic_model rest ;;
      Ok (mk_ranked (document s) (page_number s) (section_title s) relevance_score
                    (section_text s) keywords :: fst r,
          embedding ++ snd r)
  end.

(** The returned [output_data], without its time stamp. *)
Record output_data := mk_output_data {
  input_documents : list str;
  metadata_persona : persona;
  metadata_job_to_be_done : str;
  output_extracted_sections : list output_section
}.

Definition is_some {A} (o : option A) : bool :=
  match o with Some _ => true | None => false end.

(** The whole function.  [index_saved] is the outcome of writing the two
    index files, [output_saved] the outcome of writing the output file.
    [Ok None] is a skipped case. *)
Definition process_single_test_case_io (input_case_dir : case_dir)
           (semantic_model : option nlp_model) (pdf_files : list pdf)
           (index_saved output_saved : result unit) : result (option output_data) :=
  match load_persona_and_job input_case_dir with
  | Raise _ => Ok None
  | Ok (persona_info, job_to_be_done) =>
      if nonempty pdf_files then
        r <- scoring_loop persona_info job_to_be_done semantic_model
                          (all_extracted_sections pdf_files) ;;
        _ <- (if is_some semantic_model && nonempty (snd r)
              then index_saved else Ok tt) ;;
        let output_data :=
          mk_output_data (map pdf_name pdf_files) persona_info job_to_be_done
                         (extracted_sections (fst r)) in
        match output_saved with
        | Ok _ => Ok (Some output_data)
        | Raise _ => Ok None
        end
      else Ok None
  end.

(* ================================================================== *)
(** * api.find_similar *)

Record similar_section := mk_similar {
  sim_document : str;
  sim_page_number : Z;
  sim_section_title : str;
  sim_score : Q
}.

Definition IndexError : exn := Exception (lit "list index out of range").

(** [util.pytorch_cos_sim(query_embedding, all_embeddings)[0]]: the
    cosine of the query with every stored embedding. *)
Fixpoint cos_sim_row (m : nlp_model) (query_embedding : tensor)
         (all_embeddings : list tensor) : result (list Q) :=
  match all_embeddings with
  | [] => Ok []
  | e :: rest =>
      c <- cos_sim m query_embedding e ;;
      cs <- cos_sim_row m query_embedding rest ;;
      Ok (c :: cs)
  end.

(** The loop over [top_results]. *)
Fixpoint similar_loop (all_sections : list ranked_section) (cos_scores : list Q)
         (query_text : str) (top_results : list nat) : result (list similar_section) :=
  match top_results with
  | [] => Ok []
  | idx :: rest =>
      match nth_error all_sections idx with
      | None => Raise IndexError
      | Some s =>
          if negb (str_eqb (r_section_text_raw s) query_text) then
            match nth_error cos_scores idx with
            | None => Raise IndexError
            | Some score =>
                similar <- similar_loop all_sections cos_scores query_text rest ;;
                Ok (mk_similar (r_document s) (r_page_number s) (r_section_title s) score
                    :: similar)
            end
          else similar_loop all_sections cos_scores query_text rest
      end
  end.

Inductive response :=
| Error500
| SimilarSections (similar_sections : list similar_section).

(** [find_similar] for the query text of the request.  [argsort] is
    [np.argsort]; [sections_data] and [embeddings] are the contents of
    the two index files, when they exist. *)
Definition find_similar (argsort : list Q -> list nat)
           (semantic_model : option nlp_model)
           (sections_data : option (list ranked_section))
           (embeddings : option (list tensor)) (query_text : str) : result response :=
  match semantic_model, sections_data, embeddings with
  | Some m, Some all_sections, Some all_embeddings =>
      query_embedding <- encode m query_text ;;
      cos_scores <- cos_sim_row m query_embedding all_embeddings ;;
      let top_results := firstn 5 (argsort (map Qopp cos_scores)) in
      similar_sections <- similar_loop all_sections cos_scores query_text top_results ;;
      Ok (SimilarSections similar_sections)
  | _, _, _ => Ok Error500
  end.

(** What [np.argsort] guarantees: a permutation of the indices that puts
    the values in non-decreasing order (the order of equal values is not
    fixed). *)
Definition argsort_spec (argsort : list Q -> list nat) : Prop :=
  forall l,
    Permutation (argsort l) (seq 0 (length l))
    /\ StronglySorted (fun i j => (nth i l 0 <= nth j l 0)%Q) (argsort l).

(** An [argsort] by stable insertion. *)
Definition stable_argsort (l : list Q) : list nat :=
  PySort.sort (fun i j => Qltb (nth i l 0%Q) (nth j l 0%Q)) (seq 0 (length l)).

(** The entry [find_similar] makes of section [idx]. *)
Definition similar_of (all_sections : list ranked_section) (cos_scores : list Q)
           (idx : nat) : option similar_section :=
  match nth_error all_sections idx, nth_error cos_scores idx with
  | Some s, Some score =>
      Some (mk_similar (r_document s) (r_page_number s) (r_section_title s) score)
  | _, _ => None
  end.

(** Section [idx] has another raw text than the query. *)
Definition other_text (all_sections : list ranked_section) (query_text : str)
           (idx : nat) : bool :=
  match nth_error all_sections idx with
  | Some s => negb (str_eqb (r_section_text_raw s) query_text)
  | None => false
  end.

(** The entries the loop appends for one index. *)
Definition entry_of (all_sections : list ranked_section) (cos_scores : list Q)
           (query_text : str) (idx : nat) : list similar_section :=
  if other_text all_sections query_text idx
  then match similar_of all_sections cos_scores idx with
       | Some r => [r]
       | None => []
       end
  else [].


(* ================================================================== *)
(** * Sentences, stated without the splitter *)

(** The number of sentence boundaries of a text: the places where [.],
    [!] or [?] is directly followed by whitespace. *)
Fixpoint sentence_boundaries (t : str) : nat :=
  match t with
  | [] => 0
  | c :: t' =>
      (if is_terminal c && head_is_space t' then 1 else 0) + sentence_boundaries t'
  end.

(** The pieces [ps] put back around the separators [seps]. *)
Fixpoint interleave (ps seps : list str) : str :=
  match ps with
  | [] => []
  | p :: ps' =>
      match seps with
      | [] => p
      | sep :: seps' => p ++ sep ++ interleave ps' seps'
      end
  end.

(** A separator: a non-empty run of whitespace. *)
Definition whitespace_run (sep : str) : Prop :=
  sep <> [] /\ forallb is_space sep = true.

(** [ps] are the sentences of [t], split after [.], [!] or [?] followed
    by whitespace: the text is the pieces with a run of whitespace
    between each two of them; no piece has a sentence boundary inside;
    every piece in front of a separator ends with [.], [!] or [?]; and
    no piece behind a separator starts with whitespace (a separator
    takes all the whitespace there is). *)
Definition sentence_cut (t : str) (ps : list str) : Prop :=
  exists seps,
    length ps = S (length seps)
    /\ interleave ps seps = t
    /\ Forall whitespace_run seps
    /\ Forall (fun p => sentence_boundaries p = 0) ps
    /\ Forall (fun p => ends_terminal p = true) (removelast ps)
    /\ Forall (fun p => head_is_space p = false) (tl ps).

(* ================================================================== *)
(** * Properties of the stable sort *)

Module PySortFacts.
Section Facts.
Variable A : Type.
Variable lt : A -> A -> bool.

Lemma insert_perm (x : A) (l : list A) :
  Permutation (PySort.insert lt x l) (x :: l).
Proof.
  induction l as [|y l IH]; simpl.
  - apply Permutation_refl.
  - destruct (lt y x).
    + apply Permutation_trans with (y :: x :: l).
      * now apply perm_skip.
      * apply perm_swap.
    + apply Permutation_refl.
Qed.

Lemma sort_perm (l : list A) : Permutation (PySort.sort lt l) l.
Proof.
  induction l as [|x l IH]; simpl.
  - apply perm_nil.
  - eapply Permutation_trans; [apply insert_perm|].
    now apply perm_skip.
Qed.

Lemma sort_length (l : list A) : length (PySort.sort lt l) = length l.
Proof. apply Permutation_length, sort_perm. Qed.

(** Stability: the elements of a class of mutually equal keys keep
    their order. *)
Lemma insert_filter (p : A -> bool) (x : A) (l : list A) :
  (forall y, In y l -> p x = true -> p y = true -> lt y x = false) ->
  filter p (PySort.insert lt x l) = filter p (x :: l).
Proof.
  induction l as [|y l IH]; intros Hcls; simpl; [reflexivity|].
  destruct (lt y x) eqn:Hyx; simpl; [|reflexivity].
  rewrite IH by (intros z Hz; apply Hcls; now right).
  simpl. destruct (p x) eqn:Hpx, (p y) eqn:Hpy; try reflexivity.
  rewrite (Hcls y (or_introl eq_refl) eq_refl Hpy) in Hyx. discriminate.
Qed.

Lemma sort_stable (p : A -> bool) (l : list A) :
  (forall x y, p x = true -> p y = true -> lt y x = false) ->
  filter p (PySort.sort lt l) = filter p l.
Proof.
  intros Hcls. induction l as [|x l IH]; simpl; [reflexivity|].
  rewrite insert_filter by (intros y _; apply Hcls).
  simpl. now rewrite IH.
Qed.

(** The key order is a strict weak order. *)
Hypothesis lt_asym : forall a b, lt a b = true -> lt b a = false.
Hypothesis lt_negtrans :
  forall a b c, lt a b = false -> lt b c = false -> lt a c = false.

(** [S] relates every element to the ones behind it in the input;
    in the output an element is in front of another when its key is
    smaller, or the keys are equal and it was in front in the input. *)
Variable S : A -> A -> Prop.

Lemma insert_lex (x : A) (l : list A) :
  Forall (S x) l ->
  StronglySorted (PySort.lex lt S) l ->
  StronglySorted (PySort.lex lt S) (PySort.insert lt x l).
Proof.
  induction l as [|y l IH]; intros HS Hl; simpl.
  - constructor; constructor.
  - inversion HS as [|? ? HSy HSl]; subst.
    inversion Hl as [|? ? Hl' Hy]; subst.
    destruct (lt y x) eqn:Hyx.
    + constructor; [now apply IH|].
      apply (Permutation_Forall (Permutation_sym (insert_perm x l))).
      constructor; [|exact Hy].
      split; [now apply lt_asym | now left].
    + constructor; [exact Hl|].
      constructor; [split; [exact Hyx | now right]|].
      rewrite Forall_forall in Hy, HSl |- *.
      intros z Hz. split; [|right; now apply HSl].
      apply lt_negtrans with y; [apply (Hy z Hz) | exact Hyx].
Qed.

Lemma sort_lex (l : list A) :
  StronglySorted S l -> StronglySorted (PySort.lex lt S) (PySort.sort lt l).
Proof.
  induction l as [|x l IH]; intros Hl; simpl.
  - constructor.
  - inversion Hl as [|? ? Hl' Hx]; subst.
    apply insert_lex; [|now apply IH].
    apply (Permutation_Forall (Permutation_sym (sort_perm l))). exact Hx.
Qed.

End Facts.

(** The output is ordered by the keys. *)
Lemma sort_sorted {A} (lt : A -> A -> bool) (l : list A) :
  (forall a b, lt a b = true -> lt b a = false) ->
  (forall a b c, lt a b = false -> lt b c = false -> lt a c = false) ->
  StronglySorted (fun a b => lt b a = false) (PySort.sort lt l).
Proof.
  intros Has Hnt.
  assert (H : StronglySorted (PySort.lex lt (fun _ _ => True)) (PySort.sort lt l)).
  { apply sort_lex; trivial.
    induction l; constructor; trivial. apply Forall_forall; trivial. }
  revert H. generalize (PySort.sort lt l). intros s H.
  induction H as [|x s Hs IH Hx]; constructor; trivial.
  eapply Forall_impl; [|exact Hx]. intros a [Ha _]. exact Ha.
Qed.

End PySortFacts.


Lemma Qltb_lt (a b : Q) : Qltb a b = true <-> (a < b)%Q.
Proof. unfold Qltb, Qlt. apply Z.ltb_lt. Qed.

Lemma Qltb_ge (a b : Q) : Qltb a b = false <-> (b <= a)%Q.
Proof. unfold Qltb, Qle. apply Z.ltb_ge. Qed.

(* ================================================================== *)
(** * The sectioning loop *)

Lemma nonempty_true {A} (l : list A) : nonempty l = true <-> l <> [].
Proof. destruct l; simpl; split; congruence. Qed.

Lemma join_nonempty (sep : str) (parts : list str) :
  parts <> [] -> Forall (fun p => p <> []) parts -> join sep parts <> [].
Proof.
  destruct parts as [|p rest]; [congruence|].
  intros _ H. inversion H as [|? ? Hp _]; subst.
  simpl. destruct rest; [exact Hp|].
  destruct p; [congruence | discriminate].
Qed.

Lemma next_state_parts (brk : bool) (st : sec_state) (it : item) :
  Forall (fun p => p <> []) (current_section_text_parts st) ->
  text_nonempty it ->
  Forall (fun p => p <> []) (current_section_text_parts (next_state brk st it)).
Proof.
  intros Hst Hit. unfold next_state.
  set (parts := if brk && nonempty (current_section_text_parts st)
                then [] else current_section_text_parts st).
  assert (Hparts : Forall (fun p : str => p <> []) parts).
  { subst parts. destruct (brk && _); [constructor | exact Hst]. }
  destruct it as [t p b | t l p]; simpl in *.
  - destruct brk; simpl; apply Forall_app; split; trivial;
      constructor; trivial.
  - exact Hparts.
Qed.

Lemma sectioning_text_nonempty name thr (items : list item) :
  Forall text_nonempty items ->
  forall prev st,
    Forall (fun p => p <> []) (current_section_text_parts st) ->
    Forall (fun s => section_text s <> []) (sectioning name thr prev st items).
Proof.
  induction 1 as [|it rest Hit Hrest IH]; intros prev st Hst; simpl.
  - destruct (nonempty _) eqn:Hne; constructor; [|constructor].
    simpl. apply join_nonempty; [now apply nonempty_true | exact Hst].
  - apply Forall_app. split.
    + destruct (_ && _) eqn:Hfl; constructor; [|constructor].
      apply andb_prop in Hfl. destruct Hfl as [_ Hne].
      simpl. apply join_nonempty; [now apply nonempty_true | exact Hst].
    + apply IH. now apply next_state_parts.
Qed.

Lemma page_items_text_nonempty (n : nat) (pg : page) :
  Forall text_nonempty (page_items n pg).
Proof.
  unfold page_items. apply Forall_flat_map, Forall_forall. intros b _.
  destruct (nonempty (strip (block_text b))) eqn:Hne; constructor; [|constructor].
  simpl. now apply nonempty_true.
Qed.

Lemma page_loop_text_nonempty (pages : list page) :
  forall n avg, Forall text_nonempty (snd (page_loop n avg pages)).
Proof.
  induction pages as [|pg rest IH]; intros n avg; simpl; [constructor|].
  specialize (IH (S n) (update_avg avg pg)).
  destruct (page_loop (S n) (update_avg avg pg) rest) as [a its]. simpl in *.
  apply Forall_app. split; [apply page_items_text_nonempty | exact IH].
Qed.

Lemma heading_items_text_nonempty (outline : list heading) :
  Forall text_nonempty (heading_items outline).
Proof. unfold heading_items. apply Forall_map, Forall_forall. intros; exact I. Qed.

Lemma all_content_items_text_nonempty pages outline :
  Forall text_nonempty (all_content_items pages outline).
Proof.
  unfold all_content_items.
  apply (Permutation_Forall (Permutation_sym (PySortFacts.sort_perm _ _))).
  apply Forall_app. split;
    [apply page_loop_text_nonempty | apply heading_items_text_nonempty].
Qed.

(** C2: no section with an empty [section_text] is ever emitted. *)
Theorem sections_text_nonempty (name : str) (pages : list page) (outline : list heading) :
  Forall (fun s => section_text s <> [])
         (extract_document_sections name pages outline).
Proof.
  unfold extract_document_sections.
  apply sectioning_text_nonempty.
  - apply all_content_items_text_nonempty.
  - constructor.
Qed.

(** ** The sections partition the text stream *)

Lemma next_state_parts_eq (brk : bool) (st : sec_state) (it : item) :
  current_section_text_parts (next_state brk st it)
  = (if brk && nonempty (current_section_text_parts st)
     then [] else current_section_text_parts st) ++ item_texts [it].
Proof.
  unfold next_state. destruct it as [t p b | t l p]; simpl.
  - now destruct brk.
  - now rewrite app_nil_r.
Qed.

Lemma sectioning_partition name thr (items : list item) :
  forall prev st,
  exists groups : list (list str),
    Forall (fun g => g <> []) groups
    /\ concat groups = current_section_text_parts st ++ item_texts items
    /\ map section_text (sectioning name thr prev st items) = map (join newline) groups.
Proof.
  induction items as [|it rest IH]; intros prev st; simpl.
  - destruct (nonempty (current_section_text_parts st)) eqn:Hne.
    + exists [current_section_text_parts st]. split; [|split].
      * constructor; [now apply nonempty_true | constructor].
      * simpl. now rewrite !app_nil_r.
      * reflexivity.
    + exists []. split; [|split]; [constructor| |reflexivity].
      destruct (current_section_text_parts st); [reflexivity | discriminate].
  - destruct (IH (Some it) (next_state (is_section_break thr prev it) st it))
      as (groups & Hne & Hcat & Hmap).
    rewrite next_state_parts_eq in Hcat. simpl in Hcat. rewrite app_nil_r in Hcat.
    destruct (is_section_break thr prev it && nonempty (current_section_text_parts st))
      eqn:Hfl.
    + exists (current_section_text_parts st :: groups). split; [|split].
      * constructor; [|exact Hne].
        apply andb_prop in Hfl. now apply nonempty_true.
      * simpl. rewrite Hcat. reflexivity.
      * simpl. now rewrite Hmap.
    + exists groups. split; [|split]; trivial.
      rewrite Hcat. now rewrite app_assoc.
Qed.

Lemma item_texts_app (l1 l2 : list item) :
  item_texts (l1 ++ l2) = item_texts l1 ++ item_texts l2.
Proof. apply flat_map_app. Qed.

Lemma item_texts_headings (outline : list heading) :
  item_texts (heading_items outline) = [].
Proof. induction outline; simpl; trivial. Qed.

Lemma page_items_trimmed (n : nat) (pg : page) :
  Forall (trimmed_block_text [pg]) (item_texts (page_items n pg)).
Proof.
  unfold page_items. generalize (fun b (H : In b (text_blocks pg)) => H).
  generalize (text_blocks pg) at 1 3. intros bs Hbs.
  induction bs as [|b bs IH]; simpl; [constructor|].
  rewrite item_texts_app. apply Forall_app. split.
  - destruct (nonempty (strip (block_text b))) eqn:Hne; simpl; constructor;
      [|constructor].
    split; [now apply nonempty_true|].
    exists pg, b. split; [now left|]. split; [apply Hbs; now left | reflexivity].
  - apply IH. intros b' Hb'. apply Hbs. now right.
Qed.

Lemma trimmed_block_text_incl (pages pages' : list page) (t : str) :
  incl pages pages' -> trimmed_block_text pages t -> trimmed_block_text pages' t.
Proof.
  intros Hincl (Hne & pg & b & Hpg & Hb & E).
  split; [exact Hne|]. exists pg, b. auto.
Qed.

Lemma page_loop_trimmed (pages : list page) :
  forall n avg,
    Forall (trimmed_block_text pages) (item_texts (snd (page_loop n avg pages))).
Proof.
  induction pages as [|pg rest IH]; intros n avg; simpl; [constructor|].
  specialize (IH (S n) (update_avg avg pg)).
  destruct (page_loop (S n) (update_avg avg pg) rest) as [a its]. simpl in *.
  rewrite item_texts_app. apply Forall_app. split.
  - eapply Forall_impl; [|apply page_items_trimmed].
    intros t. apply trimmed_block_text_incl. intros x [<-|[]]. now left.
  - eapply Forall_impl; [|exact IH].
    intros t. apply trimmed_block_text_incl. intros x Hx. now right.
Qed.

Lemma all_content_items_trimmed pages outline :
  Forall (trimmed_block_text pages) (item_texts (all_content_items pages outline)).
Proof.
  unfold all_content_items, item_texts.
  eapply Permutation_Forall.
  - apply Permutation_flat_map, Permutation_sym, PySortFacts.sort_perm.
  - fold item_texts. rewrite item_texts_app, item_texts_headings, app_nil_r.
    apply page_loop_trimmed.
Qed.

(** C10: the section texts are the newline-joined groups of a partition
    of the text items' texts, in stream order: no text is dropped or
    duplicated, and every text of the stream is the non-empty trimmed
    text of a text block. *)
Theorem sections_partition_text_stream (name : str) (pages : list page)
        (outline : list heading) :
  Forall (trimmed_block_text pages) (item_texts (all_content_items pages outline))
  /\ exists groups : list (list str),
      Forall (fun g => g <> []) groups
      /\ concat groups = item_texts (all_content_items pages outline)
      /\ map section_text (extract_document_sections name pages outline)
         = map (join newline) groups.
Proof.
  split; [apply all_content_items_trimmed|].
  unfold extract_document_sections.
  destruct (sectioning_partition name (gap_threshold pages)
              (all_content_items pages outline) None initial_state)
    as (groups & Hne & Hcat & Hmap).
  exists groups. split; [|split]; trivial.
Qed.

(** ** Start pages *)

Lemma page_sorted_cons (s : section) (l : list section) :
  page_sorted l -> pages_from (page_number s) l -> page_sorted (s :: l).
Proof. intros; now constructor. Qed.

Lemma pages_from_weaken (lo lo' : Z) (l : list section) :
  (lo <= lo')%Z -> pages_from lo' l -> pages_from lo l.
Proof.
  intros Hlo. apply Forall_impl. intros s Hs. lia.
Qed.

Lemma next_state_page (brk : bool) (st : sec_state) (it : item) :
  current_section_start_page (next_state brk st it) = current_section_start_page st
  \/ current_section_start_page (next_state brk st it) = item_page it.
Proof.
  destruct it as [t p b | t l p]; simpl; [destruct brk; simpl|]; auto.
Qed.

(** Once the start page is below every page still to come, the sections
    come out in page order, none before the start page. *)
Lemma sectioning_pages_bounded name thr (items : list item) :
  StronglySorted (fun a b => (item_page a <= item_page b)%Z) items ->
  forall prev st,
    Forall (fun it => (current_section_start_page st <= item_page it)%Z) items ->
    page_sorted (sectioning name thr prev st items)
    /\ pages_from (current_section_start_page st) (sectioning name thr prev st items).
Proof.
  induction 1 as [|it rest Hrest IH Hit]; intros prev st Hlo; simpl.
  - destruct (nonempty _); split; repeat constructor. simpl. lia.
  - inversion Hlo as [|? ? Hlo1 Hlo2]; subst.
    set (st' := next_state (is_section_break thr prev it) st it).
    assert (Hst' : (current_section_start_page st
                    <= current_section_start_page st')%Z).
    { destruct (next_state_page (is_section_break thr prev it) st it) as [E|E];
        fold st' in E; rewrite E; lia. }
    destruct (IH (Some it) st') as [Hs Hb].
    { destruct (next_state_page (is_section_break thr prev it) st it) as [E|E];
        fold st' in E; rewrite E; trivial. }
    apply (pages_from_weaken Hst') in Hb.
    destruct (_ && _); simpl; split; trivial.
    + now apply page_sorted_cons.
    + constructor; [simpl; lia | exact Hb].
Qed.

(** From the initial start page 1 with nothing accumulated. *)
Lemma sectioning_pages_sorted name thr (items : list item) :
  StronglySorted (fun a b => (item_page a <= item_page b)%Z) items ->
  Forall text_page_positive items ->
  forall prev st,
    current_section_text_parts st = [] ->
    current_section_start_page st = 1%Z ->
    page_sorted (sectioning name thr prev st items).
Proof.
  induction 1 as [|it rest Hrest IH Hit]; intros Hpos prev st Hparts Hpage; simpl.
  - rewrite Hparts. constructor.
  - inversion Hpos as [|? ? Hp1 Hp2]; subst.
    rewrite Hparts, andb_false_r. simpl.
    apply sectioning_pages_bounded; trivial.
    destruct it as [t p b | t l p].
    + simpl in Hp1, Hit.
      destruct (next_state_page (is_section_break thr prev (TextItem t p b)) st
                                (TextItem t p b)) as [E|E]; rewrite E; trivial.
      rewrite Hpage. eapply Forall_impl; [|exact Hit]. simpl. intros; lia.
    + exact Hit.
Qed.

Lemma page_items_page (n : nat) (pg : page) :
  Forall (fun it => item_page it = (Z.of_nat n + 1)%Z /\ is_text it = true)
         (page_items n pg).
Proof.
  unfold page_items. apply Forall_flat_map, Forall_forall. intros b _.
  destruct (nonempty _); repeat constructor.
Qed.

Lemma page_loop_text_page_positive (pages : list page) :
  forall n avg, Forall text_page_positive (snd (page_loop n avg pages)).
Proof.
  induction pages as [|pg rest IH]; intros n avg; simpl; [constructor|].
  specialize (IH (S n) (update_avg avg pg)).
  destruct (page_loop (S n) (update_avg avg pg) rest) as [a its]. simpl in *.
  apply Forall_app. split; [|exact IH].
  eapply Forall_impl; [|apply page_items_page].
  intros [t p b | t l p] [Hp _]; simpl in *; lia.
Qed.

Lemma all_content_items_text_page_positive pages outline :
  Forall text_page_positive (all_content_items pages outline).
Proof.
  unfold all_content_items.
  apply (Permutation_Forall (Permutation_sym (PySortFacts.sort_perm _ _))).
  apply Forall_app. split; [apply page_loop_text_page_positive|].
  unfold heading_items. apply Forall_map, Forall_forall. intros; exact I.
Qed.

Lemma item_lt_spec (a b : item) :
  item_lt a b = true <->
  (item_page a < item_page b)%Z
  \/ (item_page a = item_page b /\ (y0 (item_bbox a) < y0 (item_bbox b))%Q).
Proof.
  unfold item_lt.
  rewrite orb_true_iff, andb_true_iff, Z.ltb_lt, Z.eqb_eq, Qltb_lt. tauto.
Qed.

Lemma item_lt_asym (a b : item) : item_lt a b = true -> item_lt b a = false.
Proof.
  intros H. apply not_true_iff_false. intros H'.
  apply item_lt_spec in H, H'.
  destruct H as [H|[H1 H2]], H' as [H'|[H1' H2']]; try lia.
  apply (Qlt_irrefl (y0 (item_bbox a))). now apply Qlt_trans with (y0 (item_bbox b)).
Qed.

Lemma item_lt_false (a b : item) :
  item_lt a b = false <->
  (item_page b < item_page a)%Z
  \/ (item_page a = item_page b /\ (y0 (item_bbox b) <= y0 (item_bbox a))%Q).
Proof.
  unfold item_lt.
  rewrite orb_false_iff, andb_false_iff, Z.ltb_ge, Z.eqb_neq, Qltb_ge.
  split.
  - intros [H1 [H2|H2]]; [left; lia|].
    destruct (Z.eq_dec (item_page a) (item_page b)); [right; auto | left; lia].
  - intros [H|[H1 H2]]; (split; [lia|]); [left; lia | right; trivial].
Qed.

Lemma item_lt_negtrans (a b c : item) :
  item_lt a b = false -> item_lt b c = false -> item_lt a c = false.
Proof.
  rewrite !item_lt_false.
  intros [H|[H1 H2]] [H'|[H1' H2']]; try (left; lia).
  right. split; [lia|]. now apply Qle_trans with (y0 (item_bbox b)).
Qed.

Lemma all_content_items_page_sorted pages outline :
  StronglySorted (fun a b => (item_page a <= item_page b)%Z)
                 (all_content_items pages outline).
Proof.
  unfold all_content_items.
  pose proof (PySortFacts.sort_sorted item_lt
                (snd (page_loop 0 default_line_height pages) ++ heading_items outline)
                item_lt_asym item_lt_negtrans) as H.
  revert H. generalize (PySort.sort item_lt
                (snd (page_loop 0 default_line_height pages) ++ heading_items outline)).
  intros l H. induction H as [|x l Hl IH Hx]; constructor; trivial.
  eapply Forall_impl; [|exact Hx]. intros a Ha. simpl in Ha.
  apply item_lt_false in Ha. lia.
Qed.

(** C4: the start pages of the emitted sections never decrease. *)
Theorem section_pages_nondecreasing (name : str) (pages : list page)
        (outline : list heading) :
  StronglySorted Z.le
    (map page_number (extract_document_sections name pages outline)).
Proof.
  assert (H : page_sorted (extract_document_sections name pages outline)).
  { unfold extract_document_sections.
    apply sectioning_pages_sorted; trivial.
    - apply all_content_items_page_sorted.
    - apply all_content_items_text_page_positive. }
  induction H as [|s l Hl IH Hs]; simpl; constructor; trivial.
  now apply Forall_map.
Qed.

(** ** Sections and the boundaries that open them *)

Lemma sectioning_heading name thr prev st t l p rest :
  sectioning name thr prev st (HeadingMarker t l p :: rest)
  = sectioning name thr prev st []
    ++ sectioning name thr (Some (HeadingMarker t l p)) (mk_state t l [] p) rest.
Proof.
  simpl. destruct (nonempty (current_section_text_parts st)) eqn:Hne; simpl.
  - reflexivity.
  - destruct (current_section_text_parts st); [reflexivity | discriminate].
Qed.

Lemma sectioning_app_heading name thr pre :
  forall prev st t l p rest,
    sectioning name thr prev st (pre ++ HeadingMarker t l p :: rest)
    = sectioning name thr prev st pre
      ++ sectioning name thr (Some (HeadingMarker t l p)) (mk_state t l [] p) rest.
Proof.
  induction pre as [|it pre IH]; intros prev st t l p rest.
  - apply sectioning_heading.
  - simpl. rewrite IH. now rewrite app_assoc.
Qed.

Lemma sectioning_quiet name thr body :
  forall prev st rest,
    quiet thr prev body = true ->
    sectioning name thr prev st (body ++ rest)
    = sectioning name thr (last_item prev body)
        (mk_state (current_section_title st) (current_section_level st)
                  (current_section_text_parts st ++ item_texts body)
                  (current_section_start_page st))
        rest.
Proof.
  induction body as [|it body IH]; intros prev st rest Hq.
  - simpl. rewrite app_nil_r. now destruct st.
  - simpl in Hq. apply andb_prop in Hq. destruct Hq as [Hbrk Hq].
    apply negb_true_iff in Hbrk.
    change ((it :: body) ++ rest) with (it :: (body ++ rest)).
    cbn [sectioning]. rewrite Hbrk. cbn [andb app].
    rewrite (IH (Some it) _ rest Hq).
    destruct it as [t p b | t l p]; [|discriminate Hbrk].
    cbn [next_state item_texts flat_map last_item
         current_section_title current_section_level
         current_section_text_parts current_section_start_page].
    rewrite <- app_assoc. reflexivity.
Qed.

Lemma sectioning_closing name thr prev st rest :
  starts_with_break thr prev rest = true ->
  current_section_text_parts st <> [] ->
  exists after,
    sectioning name thr prev st rest = flush_section name st :: after.
Proof.
  intros Hbrk Hne. apply nonempty_true in Hne.
  destruct rest as [|it rest]; simpl in *.
  - rewrite Hne. now exists [].
  - rewrite Hbrk, Hne. simpl. eexists. reflexivity.
Qed.

Lemma quiet_item_texts thr body :
  forall prev, quiet thr prev body = true -> body <> [] -> item_texts body <> [].
Proof.
  destruct body as [|it body]; intros prev Hq Hne; [congruence|].
  simpl in Hq. apply andb_prop in Hq. destruct Hq as [Hbrk _].
  destruct it; [discriminate | discriminate Hbrk].
Qed.

(** A section opened by a heading boundary. *)
Lemma heading_section name thr pre t l p body rest :
  forall prev st,
    body <> [] ->
    quiet thr (Some (HeadingMarker t l p)) body = true ->
    starts_with_break thr (last_item (Some (HeadingMarker t l p)) body) rest = true ->
    exists after,
      sectioning name thr prev st (pre ++ HeadingMarker t l p :: body ++ rest)
      = sectioning name thr prev st pre
        ++ mk_section name p t (join newline (item_texts body)) l :: after.
Proof.
  intros prev st Hne Hq Hbrk.
  rewrite sectioning_app_heading, sectioning_quiet by exact Hq.
  cbn [current_section_title current_section_level current_section_text_parts
       current_section_start_page app].
  destruct (@sectioning_closing name thr _
              (mk_state t l (item_texts body) p) rest Hbrk) as [after Hafter].
  { simpl. eapply quiet_item_texts; eauto. }
  rewrite Hafter. exists after. reflexivity.
Qed.

(** Sections emitted while no heading has been seen. *)
Lemma heading_free_sections name thr pre :
  forallb is_text pre = true ->
  forall prev st,
    prev = None \/ current_section_text_parts st <> [] ->
    Forall (fun s => level s = current_section_level st)
           (sectioning name thr prev st pre)
    /\ match sectioning name thr prev st pre with
       | [] => True
       | s :: later =>
           section_title s = current_section_title st
           /\ page_number s = current_section_start_page st
           /\ Forall (fun s' => section_title s' = lit "Content") later
       end.
Proof.
  induction pre as [|it pre IH]; intros Hfree prev st Hstart.
  - simpl. destruct (nonempty _); simpl; repeat constructor.
  - simpl in Hfree. apply andb_prop in Hfree. destruct Hfree as [Hit Hfree].
    destruct it as [t p b | t l p]; [|discriminate Hit].
    cbn [sectioning].
    set (brk := is_section_break thr prev (TextItem t p b)).
    assert (Hnext : current_section_text_parts
                      (next_state brk st (TextItem t p b)) <> []).
    { rewrite next_state_parts_eq. simpl. intros H.
      apply app_eq_nil in H. destruct H as [_ H]. discriminate H. }
    destruct (IH Hfree (Some (TextItem t p b)) (next_state brk st (TextItem t p b))
                 (or_intror Hnext)) as [Hlev Hshape].
    assert (Hlev' : current_section_level (next_state brk st (TextItem t p b))
                    = current_section_level st) by (now destruct brk).
    rewrite Hlev' in Hlev.
    destruct (brk && nonempty (current_section_text_parts st)) eqn:Hfl; cbn [app].
    + split; [constructor; trivial|].
      split; [reflexivity|]. split; [reflexivity|].
      apply andb_prop in Hfl. destruct Hfl as [Hb _].
      destruct (sectioning _ _ _ _ pre) as [|s later]; [constructor|].
      destruct Hshape as (Ht & _ & Hl). rewrite Hb in Ht.
      constructor; trivial.
    + split; [exact Hlev|].
      assert (Hb : brk = false).
      { destruct Hstart as [-> | Hne]; [reflexivity|].
        apply nonempty_true in Hne. rewrite Hne, andb_true_r in Hfl. exact Hfl. }
      destruct (sectioning _ _ _ _ pre) as [|s later]; [exact I|].
      rewrite Hb in Hshape. exact Hshape.
Qed.

(** The threshold in force is 2.5 times the value [avg_line_height] has
    at the last page, whatever page an item is on. *)
Lemma gap_threshold_last_page (pages : list page) :
  gap_threshold pages = (avg_line_height_at pages (length pages - 1) * 2.5)%Q.
Proof.
  unfold gap_threshold, avg_line_height_at.
  destruct pages as [|pg rest]; [reflexivity|].
  replace (S (length (pg :: rest) - 1)) with (length (pg :: rest)) by (simpl; lia).
  now rewrite firstn_all.
Qed.

Lemma large_gap_spec (thr : Q) ta pa ba tb pb bb :
  is_section_break thr (Some (TextItem ta pa ba)) (TextItem tb pb bb) = true
  <-> pa = pb /\ (thr < y0 bb - y1 ba)%Q.
Proof.
  unfold is_section_break. simpl.
  now rewrite andb_true_iff, Z.eqb_eq, Qltb_lt.
Qed.

(** C1: on [Samples.two_pages] the two text blocks of page 1 are 30 units
    apart, more than 2.5 times that page's average line height (10), but
    the threshold in force is 2.5 times the average of the last page
    (100): the second block is no section break and the whole document
    comes out as one section. *)
Theorem gap_threshold_is_last_pages_average :
  let pages := Samples.two_pages in
  let a := TextItem (lit "alpha") 1 (mk_bbox 0 0 100 10) in
  let b := TextItem (lit "beta") 1 (mk_bbox 0 40 100 50) in
  let c := TextItem (lit "gamma") 2 (mk_bbox 0 0 100 100) in
  all_content_items pages [] = [a; b; c]
  /\ (avg_line_height_at pages 0 == 10)%Q
  /\ (avg_line_height_at pages 0 * 2.5 < y0 (item_bbox b) - y1 (item_bbox a))%Q
  /\ (gap_threshold pages == 250)%Q
  /\ is_section_break (gap_threshold pages) (Some a) b = false
  /\ extract_document_sections Samples.name pages []
     = [mk_section Samples.name 1 (lit "Document Start")
                   (join newline [lit "alpha"; lit "beta"; lit "gamma"]) (lit "H0")].
Proof.
  cbv zeta. repeat split; vm_compute; reflexivity.
Qed.

(** The same two blocks alone on their page do trigger the boundary. *)
Example gap_boundary_on_single_page :
  map section_title (extract_document_sections Samples.name Samples.one_page [])
  = [lit "Document Start"; lit "Content"].
Proof. vm_compute. reflexivity. Qed.

(** C5, as stated, fails: with no heading at all, the section opened by
    a gap boundary is titled "Content", not "Document Start". *)
Lemma content_title_without_any_heading :
  exists s,
    In s (extract_document_sections Samples.name Samples.one_page [])
    /\ forallb is_text (all_content_items Samples.one_page []) = true
    /\ section_title s <> lit "Document Start".
Proof.
  exists (mk_section Samples.name 1 (lit "Content") (lit "beta") (lit "H0")).
  split; [|split].
  - vm_compute. right. left. reflexivity.
  - vm_compute. reflexivity.
  - vm_compute. discriminate.
Qed.

(** C5 (amended): a section opened by a heading boundary carries that
    heading's text, level and page; the sections emitted while no heading
    has been seen keep the level "H0", the first of them with the title
    "Document Start" and start page 1, the later ones, opened by a gap
    boundary, with the title "Content". *)
Theorem section_title_and_level (name : str) (pages : list page) (outline : list heading) :
  let thr := gap_threshold pages in
  let sections := extract_document_sections name pages outline in
  (forall pre t l p body rest,
      all_content_items pages outline = pre ++ HeadingMarker t l p :: body ++ rest ->
      body <> [] ->
      quiet thr (Some (HeadingMarker t l p)) body = true ->
      starts_with_break thr (last_item (Some (HeadingMarker t l p)) body) rest = true ->
      exists after,
        sections
        = sectioning name thr None initial_state pre
          ++ mk_section name p t (join newline (item_texts body)) l :: after)
  /\ (forall pre rest,
         all_content_items pages outline = pre ++ rest ->
         forallb is_text pre = true ->
         starts_with_heading rest = true ->
         let early := sectioning name thr None initial_state pre in
         (exists after, sections = early ++ after /\ (rest = [] -> after = []))
         /\ Forall (fun s => level s = lit "H0") early
         /\ match early with
            | [] => True
            | s :: later =>
                section_title s = lit "Document Start"
                /\ page_number s = 1%Z
                /\ Forall (fun s' => section_title s' = lit "Content") later
            end).
Proof.
  cbv zeta. split.
  - intros pre t l p body rest Hitems Hne Hq Hbrk.
    unfold extract_document_sections. rewrite Hitems.
    now apply heading_section.
  - intros pre rest Hitems Hfree Hrest.
    split.
    + unfold extract_document_sections. rewrite Hitems.
      destruct rest as [|[t p b | t l p] rest]; [| discriminate Hrest |].
      * rewrite app_nil_r. exists []. split; [now rewrite app_nil_r | reflexivity].
      * rewrite sectioning_app_heading. eexists. split; [reflexivity|].
        discriminate.
    + apply (@heading_free_sections name (gap_threshold pages) pre Hfree
                                    None initial_state).
      now left.
Qed.

Lemma section_title_and_level_witness :
  (exists after,
      extract_document_sections Samples.name Samples.three_blocks Samples.intro_outline
      = mk_section Samples.name 1 (lit "Intro")
                   (join newline [lit "alpha"; lit "beta"]) (lit "H1")
        :: after)
  /\ Forall (fun s => level s = lit "H0")
            (sectioning Samples.name (gap_threshold Samples.one_page) None initial_state
                        (all_content_items Samples.one_page [])).
Proof.
  destruct (section_title_and_level Samples.name Samples.three_blocks
              Samples.intro_outline) as [Hheading _].
  destruct (section_title_and_level Samples.name Samples.one_page []) as [_ Hfree].
  split.
  - change (exists after,
      extract_document_sections Samples.name Samples.three_blocks Samples.intro_outline
      = sectioning Samples.name (gap_threshold Samples.three_blocks) None
                   initial_state []
        ++ mk_section Samples.name 1 (lit "Intro")
                      (join newline [lit "alpha"; lit "beta"]) (lit "H1")
           :: after).
    apply (Hheading [] (lit "Intro") (lit "H1") 1%Z
             [TextItem (lit "alpha") 1 (mk_bbox 0 5 100 15);
              TextItem (lit "beta") 1 (mk_bbox 0 20 100 30)]
             [TextItem (lit "gamma") 1 (mk_bbox 0 70 100 80)]).
    + vm_compute. reflexivity.
    + discriminate.
    + vm_compute. reflexivity.
    + vm_compute. reflexivity.
  - apply (Hfree (all_content_items Samples.one_page []) []).
    + now rewrite app_nil_r.
    + vm_compute. reflexivity.
    + reflexivity.
Defined.

(* ================================================================== *)
(** * Ranking *)

Lemma score_lt_rev_asym a b : score_lt_rev a b = true -> score_lt_rev b a = false.
Proof.
  unfold score_lt_rev. rewrite Qltb_lt, Qltb_ge. apply Qlt_le_weak.
Qed.

Lemma score_lt_rev_negtrans a b c :
  score_lt_rev a b = false -> score_lt_rev b c = false -> score_lt_rev a c = false.
Proof.
  unfold score_lt_rev. rewrite !Qltb_ge. intros H1 H2.
  now apply Qle_trans with (r_importance_rank b).
Qed.

Lemma final_output_nth (l : list ranked_section) :
  forall k i s,
    nth_error l i = Some s ->
    nth_error (final_output k l) i = Some (output_of (k + i) s).
Proof.
  induction l as [|x l IH]; intros k i s Hi.
  - destruct i; discriminate.
  - destruct i as [|i]; simpl in *.
    + injection Hi as ->. now rewrite Nat.add_0_r.
    + rewrite (IH (S k) i s Hi). f_equal. f_equal. lia.
Qed.

Lemma final_output_ranks (l : list ranked_section) :
  forall k,
    map o_importance_rank (final_output k l)
    = map (fun i => (Z.of_nat i + 1)%Z) (seq k (length l)).
Proof.
  induction l as [|x l IH]; intros k; simpl; [reflexivity|].
  now rewrite IH.
Qed.

(** C3: the output follows the scores in non-increasing order, sections
    of equal score stay in their extraction order, and the section at
    0-based position [i] has rank [i + 1]: the ranks are 1..K. *)
Theorem ranking_is_stable_descending_with_dense_ranks (ranked : list ranked_section) :
  let sorted := sort_ranked ranked in
  let out := extracted_sections ranked in
  Permutation sorted ranked
  /\ StronglySorted (fun a b => (r_importance_rank b <= r_importance_rank a)%Q) sorted
  /\ (forall q : Q,
         filter (fun s => Qeq_bool (r_importance_rank s) q) sorted
         = filter (fun s => Qeq_bool (r_importance_rank s) q) ranked)
  /\ (forall i s, nth_error sorted i = Some s -> nth_error out i = Some (output_of i s))
  /\ length out = length ranked
  /\ map o_importance_rank out
     = map (fun i => (Z.of_nat i + 1)%Z) (seq 0 (length ranked)).
Proof.
  cbv zeta. unfold extracted_sections, sort_ranked, PySort.sort_reverse.
  fold score_lt_rev.
  split; [apply PySortFacts.sort_perm|].
  split.
  { pose proof (PySortFacts.sort_sorted score_lt_rev ranked
                  score_lt_rev_asym score_lt_rev_negtrans) as H.
    induction H as [|x l Hl IH Hx]; constructor; trivial.
    eapply Forall_impl; [|exact Hx]. intros a Ha. simpl in Ha.
    now apply Qltb_ge in Ha. }
  split.
  { intros q. apply PySortFacts.sort_stable. intros x y Hx Hy.
    apply Qeq_bool_iff in Hx, Hy. unfold score_lt_rev. apply Qltb_ge.
    rewrite Hx, Hy. apply Qle_refl. }
  split.
  { intros i s Hi. now apply (final_output_nth _ 0). }
  assert (Hranks := final_output_ranks (PySort.sort score_lt_rev ranked) 0).
  rewrite PySortFacts.sort_length in Hranks.
  split; [|exact Hranks].
  rewrite <- (length_map o_importance_rank), Hranks, length_map, length_seq.
  reflexivity.
Qed.

Lemma ranking_is_stable_descending_with_dense_ranks_witness :
  nth_error (extracted_sections ScoreSamples.five) 1
  = Some (output_of 1 (ScoreSamples.scored "B" 8.5)).
Proof.
  destruct (ranking_is_stable_descending_with_dense_ranks ScoreSamples.five)
    as (_ & _ & _ & Hnth & _).
  apply Hnth. vm_compute. reflexivity.
Defined.

(** The scenario of the specification: scores 3.0, 8.5, 1.0, 8.5, 4.0
    with [A] extracted before [B]. *)
Example ranking_scenario :
  map (fun o => (o_section_title o, o_importance_rank o))
      (extracted_sections ScoreSamples.five)
  = [(lit "A", 1%Z); (lit "B", 2%Z); (lit "s5", 3%Z); (lit "s1", 4%Z); (lit "s3", 5%Z)].
Proof. vm_compute. reflexivity. Qed.

(* ================================================================== *)
(** * Sentences and the refined text *)

Lemma split_after_terminal_skip (s : str) :
  head_is_space s = false ->
  split_after_terminal true s = split_after_terminal false s.
Proof.
  destruct s as [|c s]; intros H; simpl in *; [reflexivity|].
  now rewrite H.
Qed.

Lemma split_after_terminal_not_nil (b : bool) (s : str) :
  split_after_terminal b s <> [].
Proof.
  revert b. induction s as [|c s IH]; intros b; simpl; [discriminate|].
  destruct (b && is_space c); [apply IH|].
  destruct (is_terminal c && head_is_space s); [discriminate|].
  specialize (IH false). destruct (split_after_terminal false s);
    [congruence | discriminate].
Qed.

Lemma atomic_cons_inv (c : ascii) (p : str) :
  p <> [] -> atomic (c :: p) ->
  is_terminal c && head_is_space p = false /\ atomic p.
Proof.
  unfold atomic. intros Hp. simpl.
  destruct (is_terminal c && head_is_space p).
  - intros H. injection H as H _. congruence.
  - intros H. split; [reflexivity|].
    pose proof (split_after_terminal_not_nil false p) as Hne.
    destruct (split_after_terminal false p) as [|h t]; [congruence|].
    simpl in H. injection H as -> ->. reflexivity.
Qed.

Lemma atomic_cons (c : ascii) (p : str) :
  is_terminal c && head_is_space p = false -> atomic p -> atomic (c :: p).
Proof.
  unfold atomic. intros Hc Hp. simpl. now rewrite Hc, Hp.
Qed.

(** A piece that ends with a terminal character, followed by
    whitespace, is split off. *)
Lemma split_piece_then_space (p : str) :
  forall sp s,
    atomic p -> ends_terminal p = true -> is_space sp = true ->
    split_after_terminal false (p ++ sp :: s) = p :: split_after_terminal true s.
Proof.
  induction p as [|c p IH]; intros sp s Hat Hend Hsp; [discriminate|].
  destruct p as [|c' p].
  - simpl in *. now rewrite Hend, Hsp.
  - destruct (atomic_cons_inv (p := c' :: p) ltac:(discriminate) Hat) as [Hc Hat'].
    change ((c :: c' :: p) ++ sp :: s) with (c :: ((c' :: p) ++ sp :: s)).
    cbn [split_after_terminal andb].
    change (head_is_space ((c' :: p) ++ sp :: s)) with (head_is_space (c' :: p)).
    rewrite Hc, (IH sp s Hat' Hend Hsp). reflexivity.
Qed.

Lemma head_is_space_app (p s : str) :
  p <> [] -> head_is_space (p ++ s) = head_is_space p.
Proof. destruct p; [congruence | reflexivity]. Qed.

Lemma ends_terminal_nonempty (p : str) : ends_terminal p = true -> p <> [].
Proof. destruct p; [discriminate | discriminate]. Qed.

Lemma join_cons2 (sep p q : str) (rest : list str) :
  join sep (p :: q :: rest) = p ++ sep ++ join sep (q :: rest).
Proof. reflexivity. Qed.

Lemma rejoin_after_separator (ps : list str) :
  pieces_after_separator ps ->
  split_after_terminal true (join (lit " ") ps) = ps.
Proof.
  induction ps as [|p ps IH]; intros H; [destruct H|].
  destruct ps as [|q rest].
  - destruct H as [Hat Hsp]. simpl. now rewrite split_after_terminal_skip.
  - destruct H as (Hat & Hsp & Hend & Hrest).
    rewrite join_cons2. change (lit " " ++ ?x) with (" "%char :: x).
    rewrite split_after_terminal_skip
      by (rewrite head_is_space_app; [exact Hsp | now apply ends_terminal_nonempty]).
    rewrite split_piece_then_space by (trivial; reflexivity).
    now rewrite IH.
Qed.

Lemma rejoin (ps : list str) :
  pieces ps -> split_after_terminal false (join (lit " ") ps) = ps.
Proof.
  destruct ps as [|p [|q rest]]; intros H; [destruct H | exact H |].
  destruct H as (Hat & Hend & Hrest).
  rewrite join_cons2. change (lit " " ++ ?x) with (" "%char :: x).
  rewrite split_piece_then_space by (trivial; reflexivity).
  now rewrite rejoin_after_separator.
Qed.

Lemma pieces_after_separator_pieces (ps : list str) :
  pieces_after_separator ps -> pieces ps.
Proof.
  destruct ps as [|p [|q rest]]; simpl; tauto.
Qed.

Lemma pieces_head (ps : list str) :
  pieces ps -> head_is_space (hd [] ps) = false -> pieces_after_separator ps.
Proof.
  destruct ps as [|p [|q rest]]; simpl; tauto.
Qed.

Lemma head_of_first_piece (s : str) :
  head_is_space (hd [] (split_after_terminal false s)) = head_is_space s.
Proof.
  destruct s as [|c s]; simpl; [reflexivity|].
  destruct (is_terminal c && head_is_space s); [reflexivity|].
  now destruct (split_after_terminal false s).
Qed.

Lemma ends_terminal_cons (c : ascii) (p : str) :
  ends_terminal p = true -> ends_terminal (c :: p) = true.
Proof. destruct p; [discriminate | trivial]. Qed.

Lemma atomic_single (c : ascii) : atomic [c].
Proof. unfold atomic. simpl. now rewrite andb_false_r. Qed.

Lemma split_after_terminal_pieces (s : str) :
  pieces (split_after_terminal false s)
  /\ pieces_after_separator (split_after_terminal true s).
Proof.
  induction s as [|c s [IHf IHt]].
  - simpl. unfold atomic. simpl. auto.
  - assert (Hf : pieces (split_after_terminal false (c :: s))).
    { simpl. destruct (is_terminal c && head_is_space s) eqn:Hc.
      - apply andb_prop in Hc. destruct Hc as [Hc _].
        pose proof (split_after_terminal_not_nil true s) as Hne.
        destruct (split_after_terminal true s) as [|q rest]; [congruence|].
        split; [apply atomic_single|]. split; [exact Hc | exact IHt].
      - pose proof (head_of_first_piece s) as Hhd.
        destruct (split_after_terminal false s) as [|h [|q rest]];
          [destruct IHf | |]; simpl in *.
        + apply atomic_cons; [now rewrite Hhd | exact IHf].
        + destruct IHf as (Hat & Hend & Hrest).
          split; [apply atomic_cons; [now rewrite Hhd | exact Hat]|].
          split; [now apply ends_terminal_cons | exact Hrest]. }
    split; [exact Hf|].
    destruct (is_space c) eqn:Hsp.
    + cbn [split_after_terminal]. rewrite Hsp. exact IHt.
    + rewrite split_after_terminal_skip by exact Hsp.
      apply pieces_head; [exact Hf|].
      rewrite head_of_first_piece. exact Hsp.
Qed.

(** Splitting drops whitespace only. *)
Lemma split_after_terminal_keeps_text (s : str) :
  forall b,
    filter (fun c => negb (is_space c)) (concat (split_after_terminal b s))
    = filter (fun c => negb (is_space c)) s.
Proof.
  induction s as [|c s IH]; intros b; [reflexivity|].
  cbn [split_after_terminal].
  destruct (b && is_space c) eqn:Hskip.
  - apply andb_prop in Hskip. destruct Hskip as [_ Hsp].
    rewrite IH. simpl. now rewrite Hsp.
  - destruct (is_terminal c && head_is_space s).
    + simpl. now rewrite IH.
    + specialize (IH false).
      pose proof (split_after_terminal_not_nil false s) as Hne.
      destruct (split_after_terminal false s) as [|h t]; [congruence|].
      simpl in *. now rewrite IH.
Qed.

Lemma pieces_after_separator_firstn (ps : list str) :
  forall n, pieces_after_separator ps -> pieces_after_separator (firstn (S n) ps).
Proof.
  induction ps as [|p ps IH]; intros n H; [destruct H|].
  destruct ps as [|q rest]; [now destruct n|].
  destruct H as (Hat & Hsp & Hend & Hrest).
  destruct n as [|n]; [simpl; auto|].
  specialize (IH n Hrest).
  change (firstn (S (S n)) (p :: q :: rest)) with (p :: firstn (S n) (q :: rest)).
  remember (firstn (S n) (q :: rest)) as l eqn:El.
  destruct l as [|q' l']; [discriminate El|].
  simpl. auto.
Qed.

Lemma pieces_firstn (ps : list str) (n : nat) :
  pieces ps -> pieces (firstn (S n) ps).
Proof.
  destruct ps as [|p [|q rest]]; intros H; [destruct H | now destruct n |].
  destruct H as (Hat & Hend & Hrest).
  destruct n as [|n]; [simpl; auto|].
  pose proof (@pieces_after_separator_firstn _ n Hrest) as H'.
  change (firstn (S (S n)) (p :: q :: rest)) with (p :: firstn (S n) (q :: rest)).
  remember (firstn (S n) (q :: rest)) as l eqn:El.
  destruct l as [|q' l']; [discriminate El|].
  simpl. auto.
Qed.

Lemma firstn_min_length {A} (n : nat) (l : list A) :
  firstn (Nat.min n (length l)) l = firstn n l.
Proof.
  destruct (Nat.le_ge_cases n (length l)) as [H|H].
  - now rewrite Nat.min_l.
  - rewrite Nat.min_r by exact H.
    now rewrite firstn_all, firstn_all2.
Qed.

Lemma refined_text_eq (t : str) :
  refined_text t = join (lit " ") (firstn 3 (split_sentences t)).
Proof. unfold refined_text. now rewrite firstn_min_length. Qed.

Lemma refined_text_sentences (t : str) :
  split_sentences (refined_text t) = firstn 3 (split_sentences t).
Proof.
  rewrite refined_text_eq. unfold split_sentences. apply rejoin.
  apply pieces_firstn. apply split_after_terminal_pieces.
Qed.

Lemma extracted_sections_refined (ranked : list ranked_section) :
  forall k,
    Forall (fun o => o_refined_text o = refined_text (o_section_text_raw o))
           (final_output k ranked).
Proof.
  induction ranked as [|s l IH]; intros k; simpl; constructor; trivial.
Qed.

(** ** The sentences are the text between its boundaries *)

Lemma space_is_not_terminal (c : ascii) : is_space c = true -> is_terminal c = false.
Proof.
  destruct c as [[] [] [] [] [] [] [] []]; vm_compute; intros H;
    first [reflexivity | discriminate H].
Qed.

Lemma cons_head_length (c : ascii) (ps : list str) :
  ps <> [] -> length (cons_head c ps) = length ps.
Proof. destruct ps; [congruence | reflexivity]. Qed.

(** One piece more than there are boundaries. *)
Lemma split_after_terminal_length (s : str) :
  forall b, length (split_after_terminal b s) = S (sentence_boundaries s).
Proof.
  induction s as [|c s IH]; intros b; [reflexivity|].
  cbn [split_after_terminal sentence_boundaries].
  destruct (b && is_space c) eqn:Hskip.
  - apply andb_prop in Hskip. destruct Hskip as [_ Hsp].
    rewrite (space_is_not_terminal c Hsp). cbn [andb]. apply IH.
  - destruct (is_terminal c && head_is_space s).
    + cbn [length]. now rewrite IH.
    + rewrite cons_head_length by apply split_after_terminal_not_nil. apply IH.
Qed.

Lemma atomic_no_boundary (p : str) : atomic p -> sentence_boundaries p = 0.
Proof.
  unfold atomic. intros H.
  pose proof (split_after_terminal_length p false) as Hlen.
  rewrite H in Hlen. simpl in Hlen. lia.
Qed.

Lemma interleave_cons_head (c : ascii) (ps seps : list str) :
  ps <> [] -> interleave (cons_head c ps) seps = c :: interleave ps seps.
Proof.
  destruct ps as [|h t]; intros H; [congruence|].
  simpl. now destruct seps.
Qed.

(** The text is the pieces with their separators; in front of the
    pieces found behind a separator there is only whitespace. *)
Lemma split_after_terminal_reassemble (s : str) :
  (exists seps,
      length (split_after_terminal false s) = S (length seps)
      /\ interleave (split_after_terminal false s) seps = s
      /\ Forall whitespace_run seps)
  /\ (exists lead seps,
         forallb is_space lead = true
         /\ (head_is_space s = true -> lead <> [])
         /\ length (split_after_terminal true s) = S (length seps)
         /\ lead ++ interleave (split_after_terminal true s) seps = s
         /\ Forall whitespace_run seps).
Proof.
  induction s as [|c s [(seps & Hlen & Hcat & Hws)
                          (lead' & seps' & Hlead & Hne & Hlen' & Hcat' & Hws')]].
  - split.
    + exists []. repeat split; constructor.
    + exists [], []. repeat split; try constructor. discriminate.
  - assert (Hfalse : exists seps0,
               length (split_after_terminal false (c :: s)) = S (length seps0)
               /\ interleave (split_after_terminal false (c :: s)) seps0 = c :: s
               /\ Forall whitespace_run seps0).
    { cbn [split_after_terminal andb].
      destruct (is_terminal c && head_is_space s) eqn:Hc.
      - apply andb_prop in Hc. destruct Hc as [_ Hsp].
        exists (lead' :: seps'). split; [cbn [length]; now rewrite Hlen'|].
        split; [cbn [interleave app]; now rewrite Hcat'|].
        constructor; [|exact Hws']. split; [now apply Hne | exact Hlead].
      - exists seps.
        split; [now rewrite cons_head_length by apply split_after_terminal_not_nil|].
        split; [|exact Hws].
        rewrite interleave_cons_head by apply split_after_terminal_not_nil.
        now rewrite Hcat. }
    split; [exact Hfalse|].
    destruct (is_space c) eqn:Hsp.
    + exists (c :: lead'), seps'. cbn [split_after_terminal]. rewrite Hsp. cbn [andb].
      split; [cbn [forallb]; now rewrite Hsp, Hlead|].
      split; [discriminate|]. split; [exact Hlen'|].
      split; [cbn [app]; now rewrite Hcat' | exact Hws'].
    + destruct Hfalse as (seps0 & Hlen0 & Hcat0 & Hws0).
      exists [], seps0. rewrite split_after_terminal_skip by exact Hsp.
      split; [reflexivity|].
      split; [cbn [head_is_space]; rewrite Hsp; discriminate|].
      split; [exact Hlen0|]. split; [exact Hcat0 | exact Hws0].
Qed.

Lemma pieces_after_separator_shape (ps : list str) :
  pieces_after_separator ps ->
  Forall (fun p => sentence_boundaries p = 0) ps
  /\ Forall (fun p => ends_terminal p = true) (removelast ps)
  /\ Forall (fun p => head_is_space p = false) ps.
Proof.
  induction ps as [|p ps IH]; intros H; [destruct H|].
  destruct ps as [|q rest].
  - destruct H as [Hat Hsp].
    split; [constructor; [now apply atomic_no_boundary | constructor]|].
    split; constructor; trivial.
  - destruct H as (Hat & Hsp & Hend & Hrest).
    destruct (IH Hrest) as (Hb & He & Hh).
    split; [constructor; [now apply atomic_no_boundary | exact Hb]|].
    split; [|constructor; trivial].
    change (removelast (p :: q :: rest)) with (p :: removelast (q :: rest)).
    constructor; trivial.
Qed.

Lemma pieces_shape (ps : list str) :
  pieces ps ->
  Forall (fun p => sentence_boundaries p = 0) ps
  /\ Forall (fun p => ends_terminal p = true) (removelast ps)
  /\ Forall (fun p => head_is_space p = false) (tl ps).
Proof.
  destruct ps as [|p [|q rest]]; intros H; [destruct H | |].
  - split; [constructor; [now apply atomic_no_boundary | constructor]|].
    split; constructor.
  - destruct H as (Hat & Hend & Hrest).
    destruct (pieces_after_separator_shape _ Hrest) as (Hb & He & Hh).
    split; [constructor; [now apply atomic_no_boundary | exact Hb]|].
    split; [|exact Hh].
    change (removelast (p :: q :: rest)) with (p :: removelast (q :: rest)).
    constructor; trivial.
Qed.

(** The splitter cuts the text at its sentence boundaries. *)
Lemma split_sentences_cut (t : str) : sentence_cut t (split_sentences t).
Proof.
  unfold sentence_cut, split_sentences.
  destruct (split_after_terminal_reassemble t) as [(seps & Hlen & Hcat & Hws) _].
  destruct (pieces_shape _ (proj1 (split_after_terminal_pieces t))) as (Hb & He & Hh).
  exists seps. repeat split; trivial.
Qed.

Lemma refined_text_boundaries (t : str) :
  sentence_boundaries (refined_text t) = Nat.min 2 (sentence_boundaries t).
Proof.
  pose proof (split_after_terminal_length (refined_text t) false) as H.
  fold (split_sentences (refined_text t)) in H.
  rewrite refined_text_sentences, length_firstn in H.
  unfold split_sentences in H. rewrite split_after_terminal_length in H. lia.
Qed.

(** C7: the sentences of a raw text are its pieces between the places
    where [.], [!] or [?] is followed by whitespace, one more than there
    are such places; the refined text of every output section is the
    first up to 3 of them joined by one space; splitting it again gives
    those sentences back, never more than 3, and it has the first 2
    sentence boundaries of the raw text at most. *)
Theorem refined_text_is_first_three_sentences (ranked : list ranked_section) :
  Forall (fun o =>
            let sentences := split_sentences (o_section_text_raw o) in
            o_refined_text o = join (lit " ") (firstn 3 sentences)
            /\ split_sentences (o_refined_text o) = firstn 3 sentences
            /\ length (split_sentences (o_refined_text o)) <= 3
            /\ sentence_cut (o_section_text_raw o) sentences
            /\ length sentences = S (sentence_boundaries (o_section_text_raw o))
            /\ sentence_boundaries (o_refined_text o)
               = Nat.min 2 (sentence_boundaries (o_section_text_raw o)))
         (extracted_sections ranked).
Proof.
  unfold extracted_sections.
  eapply Forall_impl; [|apply extracted_sections_refined].
  intros o Ho. cbv zeta. rewrite Ho.
  split; [apply refined_text_eq|].
  split; [apply refined_text_sentences|].
  split; [rewrite refined_text_sentences, length_firstn; lia|].
  split; [apply split_sentences_cut|].
  split; [apply split_after_terminal_length | apply refined_text_boundaries].
Qed.

(* ================================================================== *)
(** * Keyword extraction *)

Lemma str_eqb_eq (a b : str) : str_eqb a b = true <-> a = b.
Proof. unfold str_eqb. destruct (str_eq_dec a b); split; congruence. Qed.

Lemma str_eqb_neq (a b : str) : str_eqb a b = false <-> a <> b.
Proof. unfold str_eqb. destruct (str_eq_dec a b); split; congruence. Qed.

Lemma str_eqb_refl (a : str) : str_eqb a a = true.
Proof. now apply str_eqb_eq. Qed.

Lemma mem_In (x : str) (l : list str) : mem x l = true <-> In x l.
Proof.
  unfold mem. rewrite existsb_exists. split.
  - intros (y & Hy & E). apply str_eqb_eq in E. now subst.
  - intros H. exists x. split; [exact H | now apply str_eqb_eq].
Qed.

(** ** Generalities on strongly sorted lists *)

Lemma StronglySorted_impl_In {A} (R R' : A -> A -> Prop) (l : list A) :
  (forall a b, In a l -> In b l -> R a b -> R' a b) ->
  StronglySorted R l -> StronglySorted R' l.
Proof.
  intros Himp H. induction H as [|x l Hl IH Hx]; constructor.
  - apply IH. intros a b Ha Hb. apply Himp; now right.
  - rewrite Forall_forall in Hx |- *. intros b Hb.
    apply Himp; [now left | now right | now apply Hx].
Qed.

Lemma StronglySorted_snoc {A} (R : A -> A -> Prop) (l : list A) (x : A) :
  StronglySorted R l -> Forall (fun a => R a x) l -> StronglySorted R (l ++ [x]).
Proof.
  induction 1 as [|y l Hl IH Hy]; intros Hx; simpl.
  - repeat constructor.
  - inversion Hx as [|? ? Hyx Hlx]; subst.
    constructor; [now apply IH|].
    apply Forall_app. split; [exact Hy | now constructor].
Qed.

Lemma StronglySorted_app_inv {A} (R : A -> A -> Prop) (l1 l2 : list A) :
  StronglySorted R (l1 ++ l2) ->
  forall a b, In a l1 -> In b l2 -> R a b.
Proof.
  induction l1 as [|x l1 IH]; intros H a b Ha Hb; [destruct Ha|].
  simpl in H. inversion H as [|? ? Hl Hx]; subst.
  destruct Ha as [<-|Ha].
  - rewrite Forall_forall in Hx. apply Hx, in_or_app. now right.
  - now apply IH.
Qed.

Lemma StronglySorted_map {A B} (f : A -> B) (R : B -> B -> Prop) (l : list A) :
  StronglySorted R (map f l) <-> StronglySorted (fun a b => R (f a) (f b)) l.
Proof.
  induction l as [|x l IH]; simpl; split; intros H; try constructor;
    inversion H as [|? ? Hl Hx]; subst.
  - now apply IH.
  - rewrite Forall_forall in Hx |- *. intros a Ha. apply Hx. now apply in_map.
  - now apply IH.
  - now apply Forall_map.
Qed.


(** ** First encounters *)

Lemma first_index_lt (k : str) (ws : list str) :
  In k ws -> first_index k ws < length ws.
Proof.
  induction ws as [|x ws IH]; intros H; [destruct H|]. simpl.
  destruct (str_eqb x k) eqn:E; [lia|].
  apply str_eqb_neq in E. destruct H as [H|H]; [contradiction|].
  specialize (IH H). lia.
Qed.

Lemma first_index_app_in (k : str) (ws l : list str) :
  In k ws -> first_index k (ws ++ l) = first_index k ws.
Proof.
  induction ws as [|x ws IH]; intros H; [destruct H|]. simpl.
  destruct (str_eqb x k) eqn:E; [reflexivity|].
  apply str_eqb_neq in E. destruct H as [H|H]; [contradiction|].
  now rewrite IH.
Qed.

Lemma first_index_app_new (k : str) (ws : list str) :
  ~ In k ws -> first_index k (ws ++ [k]) = length ws.
Proof.
  induction ws as [|x ws IH]; intros H; simpl.
  - now rewrite str_eqb_refl.
  - simpl in H. destruct (str_eqb x k) eqn:E.
    + apply str_eqb_eq in E. tauto.
    + rewrite IH by tauto. reflexivity.
Qed.

(** ** The counter *)

Lemma Counter_snoc (ws : list str) (w : str) :
  Counter (ws ++ [w]) = counter_add w (Counter ws).
Proof. unfold Counter. now rewrite fold_left_app. Qed.

Lemma counter_add_new (w : str) (c : list (str * nat)) :
  ~ In w (map fst c) -> map fst (counter_add w c) = map fst c ++ [w].
Proof.
  induction c as [|[k v] c IH]; intros H; simpl; [reflexivity|].
  simpl in H. destruct (str_eqb k w) eqn:E.
  - apply str_eqb_eq in E. tauto.
  - simpl. rewrite IH by tauto. reflexivity.
Qed.

Lemma counter_add_old (w : str) (c : list (str * nat)) :
  In w (map fst c) -> map fst (counter_add w c) = map fst c.
Proof.
  induction c as [|[k v] c IH]; intros H; simpl; [destruct H|].
  destruct (str_eqb k w) eqn:E; simpl; [reflexivity|].
  apply str_eqb_neq in E. simpl in H. rewrite IH by tauto. reflexivity.
Qed.

Lemma lookup_counter_add (k w : str) (c : list (str * nat)) :
  lookup k (counter_add w c) = lookup k c + (if str_eqb w k then 1 else 0).
Proof.
  induction c as [|[k0 v0] c IH]; simpl.
  - reflexivity.
  - destruct (str_eqb k0 w) eqn:E; simpl.
    + apply str_eqb_eq in E. subst k0.
      destruct (str_eqb w k); lia.
    + destruct (str_eqb k0 k) eqn:E'; [|exact IH].
      apply str_eqb_eq in E'. subst k0.
      destruct (str_eqb w k) eqn:E2; [|lia].
      apply str_eqb_eq in E2. subst w. rewrite str_eqb_refl in E. discriminate.
Qed.

Lemma lookup_In (k : str) (v : nat) (c : list (str * nat)) :
  NoDup (map fst c) -> In (k, v) c -> lookup k c = v.
Proof.
  induction c as [|[k0 v0] c IH]; intros Hnd H; [destruct H|].
  simpl in *. inversion Hnd as [|? ? Hk0 Hnd']; subst.
  destruct H as [H|H].
  - injection H as -> ->. now rewrite str_eqb_refl.
  - destruct (str_eqb k0 k) eqn:E; [|now apply IH].
    apply str_eqb_eq in E. subst k0.
    exfalso. apply Hk0. now apply (in_map fst) in H.
Qed.

Lemma lookup_Counter (k : str) (ws : list str) :
  lookup k (Counter ws) = frequency k ws.
Proof.
  unfold frequency. induction ws as [|w ws IH] using rev_ind; [reflexivity|].
  rewrite Counter_snoc, lookup_counter_add, IH, count_occ_app. simpl.
  destruct (str_eq_dec w k) as [->|Hne].
  - now rewrite str_eqb_refl.
  - apply str_eqb_neq in Hne. now rewrite Hne.
Qed.

Lemma Counter_keys (ws : list str) :
  NoDup (map fst (Counter ws))
  /\ (forall k, In k (map fst (Counter ws)) <-> In k ws)
  /\ StronglySorted (fun a b => first_index a ws < first_index b ws)
                    (map fst (Counter ws)).
Proof.
  induction ws as [|w ws (Hnd & Hin & Hsorted)] using rev_ind.
  - simpl. split; [constructor|]. split; [tauto | constructor].
  - rewrite Counter_snoc.
    destruct (in_dec str_eq_dec w (map fst (Counter ws))) as [Hw|Hw].
    + rewrite counter_add_old by exact Hw.
      split; [exact Hnd|]. split.
      * intros k. rewrite in_app_iff, Hin. simpl.
        split; [tauto|]. intros [H|[<-|[]]]; trivial. now apply Hin.
      * apply (StronglySorted_impl_In (R := fun a b =>
                 first_index a ws < first_index b ws)); trivial.
        intros a b Ha Hb. apply Hin in Ha, Hb.
        now rewrite !first_index_app_in.
    + rewrite counter_add_new by exact Hw.
      assert (Hw' : ~ In w ws) by (now rewrite <- Hin).
      split.
      * apply NoDup_rev in Hnd. rewrite <- (rev_involutive (_ ++ _)).
        apply NoDup_rev. rewrite rev_app_distr. simpl.
        constructor; trivial. now rewrite <- in_rev.
      * split.
        -- intros k. rewrite !in_app_iff, Hin. simpl. tauto.
        -- apply StronglySorted_snoc.
           ++ apply (StronglySorted_impl_In (R := fun a b =>
                 first_index a ws < first_index b ws)); trivial.
              intros a b Ha Hb. apply Hin in Ha, Hb.
              now rewrite !first_index_app_in.
           ++ apply Forall_forall. intros a Ha. apply Hin in Ha.
              rewrite first_index_app_in, first_index_app_new by trivial.
              now apply first_index_lt.
Qed.

Lemma Counter_counts (ws : list str) (k : str) (v : nat) :
  In (k, v) (Counter ws) -> v = frequency k ws /\ In k ws.
Proof.
  intros H. destruct (Counter_keys ws) as (Hnd & Hin & _).
  split.
  - rewrite <- lookup_Counter. symmetry. now apply lookup_In.
  - apply Hin. now apply (in_map fst) in H.
Qed.

(** ** Tokens are pieces of the text *)

Lemma split_on_shape (sep : ascii -> bool) (s : str) :
  exists h t,
    split_on sep s = h :: t
    /\ (exists r, s = h ++ r)
    /\ (forall p, In p t -> exists l r, s = l ++ p ++ r).
Proof.
  induction s as [|c s (h & t & E & (r & Hh) & Ht)]; simpl.
  - exists [], []. split; [reflexivity|]. split; [now exists [] | intros p []].
  - destruct (sep c).
    + exists [], (split_on sep s). split; [reflexivity|].
      split; [now exists (c :: s)|].
      rewrite E. intros p [<-|Hp].
      * exists [c], r. now rewrite Hh.
      * destruct (Ht p Hp) as (l & r' & E'). exists (c :: l), r'. now rewrite E'.
    + rewrite E. simpl. exists (c :: h), t. split; [reflexivity|].
      split; [exists r; now rewrite Hh|].
      intros p Hp. destruct (Ht p Hp) as (l & r' & E').
      exists (c :: l), r'. now rewrite E'.
Qed.

Lemma runs_substring (sep : ascii -> bool) (s p : str) :
  In p (runs sep s) -> exists l r, s = l ++ p ++ r.
Proof.
  unfold runs. rewrite filter_In. intros [Hp _].
  destruct (split_on_shape sep s) as (h & t & E & (r & Hh) & Ht).
  rewrite E in Hp. destruct Hp as [<-|Hp]; [|now apply Ht].
  now exists [], r.
Qed.

Lemma prefixb_app (p r : str) : prefixb p (p ++ r) = true.
Proof.
  induction p as [|c p IH]; simpl; [reflexivity|].
  now rewrite Ascii.eqb_refl.
Qed.

Lemma contains_app (l p r : str) : contains p (l ++ p ++ r) = true.
Proof.
  induction l as [|c l IH].
  - pose proof (prefixb_app p r) as H. simpl.
    destruct (p ++ r); simpl; now rewrite H.
  - simpl. rewrite IH. apply orb_true_r.
Qed.




(** ** The keyword order *)

Lemma count_lt_rev_asym a b : count_lt_rev a b = true -> count_lt_rev b a = false.
Proof.
  unfold count_lt_rev. rewrite Nat.ltb_lt, Nat.ltb_ge. lia.
Qed.

Lemma count_lt_rev_negtrans a b c :
  count_lt_rev a b = false -> count_lt_rev b c = false -> count_lt_rev a c = false.
Proof.
  unfold count_lt_rev. rewrite !Nat.ltb_ge. lia.
Qed.

Lemma most_common_sorted (ws : list str) :
  let sorted := PySort.sort_reverse (fun a b => snd a <? snd b) (Counter ws) in
  Permutation sorted (Counter ws)
  /\ StronglySorted (fun a b => ahead ws (fst a) (fst b)) sorted.
Proof.
  cbv zeta. unfold PySort.sort_reverse. fold count_lt_rev.
  change (fun a b : str * nat => count_lt_rev a b) with count_lt_rev.
  split; [apply PySortFacts.sort_perm|].
  destruct (Counter_keys ws) as (Hnd & Hin & Hsorted).
  apply (StronglySorted_map fst
           (fun a b => first_index a ws < first_index b ws)) in Hsorted.
  pose proof (@PySortFacts.sort_lex _ count_lt_rev count_lt_rev_asym
                count_lt_rev_negtrans _ _ Hsorted) as H.
  eapply StronglySorted_impl_In; [|exact H].
  intros [ka va] [kb vb] Ha Hb [H1 H2].
  apply (Permutation_in _ (PySortFacts.sort_perm _ _)) in Ha, Hb.
  apply Counter_counts in Ha, Hb. destruct Ha as [-> _], Hb as [-> _].
  unfold count_lt_rev in H1, H2. simpl in *.
  apply Nat.ltb_ge in H1. rewrite Nat.ltb_lt in H2.
  split; [lia|]. intros E. destruct H2 as [H2|H2]; [lia | exact H2].
Qed.



(* ================================================================== *)
(** * Relevance *)

Lemma keyword_loop_spec (kws toks : list str) :
  forall score,
    (keyword_loop kws toks score
     == score + 2 * inject_Z (Z.of_nat (length (matching_keywords kws toks))))%Q.
Proof.
  unfold keyword_loop, matching_keywords.
  induction kws as [|kw kws IH]; intros score; simpl.
  - ring.
  - rewrite IH. destruct (mem kw toks); simpl length; [|reflexivity].
    rewrite Nat2Z.inj_succ, <- Z.add_1_r, inject_Z_plus. ring.
Qed.

Lemma keyword_term_spec text persona_info job_text :
  (keyword_term text persona_info job_text
   == 2 * inject_Z (Z.of_nat (matches text persona_info job_text)))%Q.
Proof.
  unfold keyword_term, matches. rewrite keyword_loop_spec. ring.
Qed.

Lemma embedding_step_shift (m : nlp_model) text persona_info job_text (score : Q) :
  match embedding_step m text persona_info job_text score,
        embedding_step m text persona_info job_text 0 with
  | Ok v, Ok v0 => (v == score + v0)%Q
  | Raise e, Raise e0 => e = e0
  | _, _ => False
  end.
Proof.
  unfold embedding_step, bind.
  destruct (encode m (combined_query persona_info job_text)); [|reflexivity].
  destruct (encode m text); [|reflexivity].
  destruct (cos_sim m a a0); [|reflexivity].
  ring.
Qed.

(** The score is the sum of its three terms. *)
Lemma calculate_relevance_terms text persona_info job_text model :
  exists s,
    calculate_relevance text persona_info job_text model = Ok s
    /\ (s == keyword_term text persona_info job_text
            + embedding_contribution model text persona_info job_text
            + short_bonus text persona_info job_text)%Q.
Proof.
  unfold calculate_relevance, embedding_contribution, short_bonus.
  fold (keyword_term text persona_info job_text).
  set (k := keyword_term text persona_info job_text).
  set (short := short_with_keyword text (all_keywords persona_info job_text)).
  destruct model as [m|]; simpl.
  - pose proof (embedding_step_shift m text persona_info job_text k) as H.
    destruct (embedding_step m text persona_info job_text k) as [v|e],
             (embedding_step m text persona_info job_text 0) as [v0|e0];
      try contradiction; simpl; eexists; (split; [reflexivity|]);
      destruct short; try rewrite H; ring.
  - eexists. split; [reflexivity|]. destruct short; ring.
Qed.

Lemma short_bonus_range text persona_info job_text :
  (0 <= short_bonus text persona_info job_text <= 1)%Q.
Proof.
  unfold short_bonus. destruct (short_with_keyword _ _); split; discriminate.
Qed.

Lemma short_with_keyword_incl text (kws kws' : list str) :
  incl kws kws' ->
  short_with_keyword text kws = true -> short_with_keyword text kws' = true.
Proof.
  unfold short_with_keyword. intros Hincl H.
  apply andb_prop in H. destruct H as [Hlen Hex].
  rewrite Hlen. simpl. apply existsb_exists in Hex.
  destruct Hex as (kw & Hkw & Hc). apply existsb_exists. exists kw. auto.
Qed.

Lemma all_keywords_NoDup persona_info job_text :
  NoDup (all_keywords persona_info job_text).
Proof. apply NoDup_nodup. Qed.

Lemma matching_keywords_incl (kws kws' toks : list str) :
  NoDup kws -> incl kws kws' ->
  length (matching_keywords kws toks) <= length (matching_keywords kws' toks).
Proof.
  intros Hnd Hincl. apply NoDup_incl_length.
  - now apply NoDup_filter.
  - intros kw. unfold matching_keywords. rewrite !filter_In.
    intros [H1 H2]. auto.
Qed.

(** The three calls of the [try] block that can raise. *)
Lemma embedding_step_raises (m : nlp_model) text persona_info job_text score e :
  encode m (combined_query persona_info job_text) = Raise e
  \/ (exists q, encode m (combined_query persona_info job_text) = Ok q
                /\ encode m text = Raise e)
  \/ (exists q t, encode m (combined_query persona_info job_text) = Ok q
                  /\ encode m text = Ok t /\ cos_sim m q t = Raise e) ->
  embedding_step m text persona_info job_text score = Raise e.
Proof.
  unfold embedding_step, bind.
  intros [H | [(q & Hq & H) | (q & t & Hq & Ht & H)]].
  - now rewrite H.
  - now rewrite Hq, H.
  - now rewrite Hq, Ht, H.
Qed.

(** C9: when the embedding step fails, or there is no model, the scorer
    still returns: the score is the keyword term plus the short-section
    bonus, the embedding term being 0. *)
Theorem embedding_failure_contributes_zero text persona_info job_text model :
  (forall m, model = Some m ->
             exists e, embedding_step m text persona_info job_text
                                      (keyword_term text persona_info job_text)
                       = Raise e) ->
  embedding_contribution model text persona_info job_text = 0%Q
  /\ exists s,
      calculate_relevance text persona_info job_text model = Ok s
      /\ (s == keyword_term text persona_info job_text + 0
              + short_bonus text persona_info job_text)%Q.
Proof.
  intros Hfail.
  assert (H0 : embedding_contribution model text persona_info job_text = 0%Q).
  { unfold embedding_contribution. destruct model as [m|]; [|reflexivity].
    destruct (Hfail m eq_refl) as [e He].
    pose proof (embedding_step_shift m text persona_info job_text
                  (keyword_term text persona_info job_text)) as H.
    rewrite He in H.
    now destruct (embedding_step m text persona_info job_text 0). }
  split; [exact H0|].
  destruct (calculate_relevance_terms text persona_info job_text model) as (s & Hs & E).
  exists s. split; [exact Hs|]. now rewrite H0 in E.
Qed.

Lemma embedding_failure_contributes_zero_witness :
  exists s,
    calculate_relevance (lit "the cat sat") ModelSamples.nobody (lit "cat food")
                        (Some ModelSamples.broken_model) = Ok s
    /\ (s == keyword_term (lit "the cat sat") ModelSamples.nobody (lit "cat food") + 0
            + short_bonus (lit "the cat sat") ModelSamples.nobody (lit "cat food"))%Q.
Proof.
  apply (@embedding_failure_contributes_zero (lit "the cat sat") ModelSamples.nobody
           (lit "cat food") (Some ModelSamples.broken_model)).
  intros m Hm. injection Hm as <-.
  exists (Exception (lit "model unavailable")). reflexivity.
Defined.

Example broken_model_score :
  calculate_relevance (lit "the cat sat") ModelSamples.nobody (lit "cat food")
                      (Some ModelSamples.broken_model) = Ok 3%Q.
Proof. vm_compute. reflexivity. Qed.

Lemma matches_bonus text persona_info job_text :
  0 < matches text persona_info job_text ->
  existsb (fun kw => contains kw (lower text)) (all_keywords persona_info job_text)
  = true.
Proof.
  unfold matches, matching_keywords. intros H.
  destruct (filter _ _) as [|kw l] eqn:E; [simpl in H; lia|].
  assert (Hkw : In kw (kw :: l)) by now left.
  rewrite <- E in Hkw. apply filter_In in Hkw. destruct Hkw as [Hin Hmem].
  apply existsb_exists. exists kw. split; [exact Hin|].
  apply mem_In in Hmem. apply runs_substring in Hmem.
  destruct Hmem as (l' & r & ->). apply contains_app.
Qed.

(** C6, as stated, fails when neither query has an exact match: on the
    text "cat" the job texts "at" and "zz" both have 0 exact matches and
    no embedding contribution, yet "at" is a substring of the short text
    and earns the bonus: the scores are 1 and 0. *)
Lemma equal_matches_lower_score :
  matches (lit "cat") ModelSamples.nobody (lit "at")
  <= matches (lit "cat") ModelSamples.nobody (lit "zz")
  /\ (embedding_contribution None (lit "cat") ModelSamples.nobody (lit "at")
      == embedding_contribution None (lit "cat") ModelSamples.nobody (lit "zz"))%Q
  /\ calculate_relevance (lit "cat") ModelSamples.nobody (lit "at") None = Ok 1%Q
  /\ calculate_relevance (lit "cat") ModelSamples.nobody (lit "zz") None = Ok 0%Q
  /\ ~ (1 <= 0)%Q.
Proof.
  split; [vm_compute; lia|]. split; [reflexivity|].
  split; [vm_compute; reflexivity|]. split; [vm_compute; reflexivity|].
  unfold Qle. simpl. lia.
Qed.

(** C6 (amended): with the section text and the embedding contribution
    fixed, the score is [2 * matches] plus the embedding contribution
    plus the short-section bonus, every keyword counting once; a larger
    keyword set never lowers the score, more exact matches raise it, and
    at least as many matches, one or more, never lower it. *)
Theorem relevance_monotone_in_keyword_matches
        (text : str) (p1 p2 : persona) (j1 j2 : str) (m1 m2 : option nlp_model) :
  (embedding_contribution m1 text p1 j1 == embedding_contribution m2 text p2 j2)%Q ->
  exists s1 s2,
    calculate_relevance text p1 j1 m1 = Ok s1
    /\ calculate_relevance text p2 j2 m2 = Ok s2
    /\ NoDup (all_keywords p1 j1)
    /\ (s1 == 2 * inject_Z (Z.of_nat (matches text p1 j1))
              + embedding_contribution m1 text p1 j1 + short_bonus text p1 j1)%Q
    /\ (s2 == 2 * inject_Z (Z.of_nat (matches text p2 j2))
              + embedding_contribution m2 text p2 j2 + short_bonus text p2 j2)%Q
    /\ (incl (all_keywords p1 j1) (all_keywords p2 j2) ->
        matches text p1 j1 <= matches text p2 j2 /\ (s1 <= s2)%Q)
    /\ (matches text p1 j1 < matches text p2 j2 -> (s1 < s2)%Q)
    /\ (matches text p1 j1 <= matches text p2 j2 -> 0 < matches text p2 j2 ->
        (s1 <= s2)%Q).
Proof.
  intros He.
  destruct (calculate_relevance_terms text p1 j1 m1) as (s1 & Hs1 & E1).
  destruct (calculate_relevance_terms text p2 j2 m2) as (s2 & Hs2 & E2).
  rewrite keyword_term_spec in E1, E2.
  exists s1, s2.
  split; [exact Hs1|]. split; [exact Hs2|].
  split; [apply all_keywords_NoDup|].
  split; [exact E1|]. split; [exact E2|].
  pose proof (short_bonus_range text p1 j1) as [Hb1 Hb1'].
  pose proof (short_bonus_range text p2 j2) as [Hb2 Hb2'].
  split.
  - intros Hincl.
    assert (Hn : matches text p1 j1 <= matches text p2 j2).
    { apply matching_keywords_incl; [apply all_keywords_NoDup | exact Hincl]. }
    split; [exact Hn|].
    assert (Hb : (short_bonus text p1 j1 <= short_bonus text p2 j2)%Q).
    { unfold short_bonus.
      destruct (short_with_keyword text (all_keywords p1 j1)) eqn:S1.
      - rewrite (short_with_keyword_incl text Hincl S1). apply Qle_refl.
      - destruct (short_with_keyword text (all_keywords p2 j2)); discriminate. }
    assert (Hq : (inject_Z (Z.of_nat (matches text p1 j1))
                  <= inject_Z (Z.of_nat (matches text p2 j2)))%Q).
    { rewrite <- Zle_Qle. lia. }
    rewrite E1, E2. lra.
  - split; [intros Hlt | intros Hle Hpos].
    { assert (Hq : (inject_Z (Z.of_nat (matches text p1 j1)) + 1
                  <= inject_Z (Z.of_nat (matches text p2 j2)))%Q).
      { change 1%Q with (inject_Z 1). rewrite <- inject_Z_plus, <- Zle_Qle. lia. }
      rewrite E1, E2. lra. }
    assert (Hb : (short_bonus text p1 j1 <= short_bonus text p2 j2)%Q).
    { unfold short_bonus, short_with_keyword.
      rewrite (matches_bonus text p2 j2 Hpos), andb_true_r.
      destruct (length (split_ws text) <? 10); simpl; [|apply Qle_refl].
      destruct (existsb _ _); discriminate. }
    assert (Hq : (inject_Z (Z.of_nat (matches text p1 j1))
                  <= inject_Z (Z.of_nat (matches text p2 j2)))%Q).
    { rewrite <- Zle_Qle. lia. }
    rewrite E1, E2. lra.
Qed.

Lemma relevance_monotone_in_keyword_matches_witness :
  exists s1 s2,
    calculate_relevance (lit "the cat sat on the mat") ModelSamples.nobody (lit "cat")
                        (Some ModelSamples.constant_model) = Ok s1
    /\ calculate_relevance (lit "the cat sat on the mat") ModelSamples.nobody
                           (lit "cat mat") (Some ModelSamples.constant_model) = Ok s2
    /\ (s1 < s2)%Q.
Proof.
  destruct (@relevance_monotone_in_keyword_matches
              (lit "the cat sat on the mat") ModelSamples.nobody ModelSamples.nobody
              (lit "cat") (lit "cat mat")
              (Some ModelSamples.constant_model) (Some ModelSamples.constant_model))
    as (s1 & s2 & H1 & H2 & _ & _ & _ & _ & Hlt & _).
  - vm_compute. reflexivity.
  - exists s1, s2. split; [exact H1|]. split; [exact H2|].
    apply Hlt. vm_compute. lia.
Defined.

Example relevance_with_repeats :
  calculate_relevance (lit "cat cat cat dog") ModelSamples.nobody (lit "Cat cat") None
  = Ok 3%Q.
Proof. vm_compute. reflexivity. Qed.

(* ================================================================== *)
(** * The section pipeline *)

Lemma score_sections_without_model persona_info job (sections : list section) :
  exists ranked,
    score_sections persona_info job None sections = Ok ranked
    /\ map r_section_text_raw ranked = map section_text sections.
Proof.
  induction sections as [|s rest (ranked & Hr & Hraw)].
  - now exists [].
  - destruct (calculate_relevance_terms (section_text s) persona_info job None)
      as (score & Hs & _).
    cbn [score_sections]. rewrite Hs, Hr. cbn [bind].
    eexists. split; [reflexivity|].
    simpl. now rewrite Hraw.
Qed.

(** Without a model every case with PDF files is processed. *)
Lemma process_single_test_case_without_model persona_info job (pdf_files : list pdf) :
  pdf_files <> [] ->
  exists ranked,
    process_single_test_case persona_info job None pdf_files
    = Ok (Some (extracted_sections ranked)).
Proof.
  intros Hne. apply nonempty_true in Hne.
  unfold process_single_test_case. rewrite Hne.
  destruct (score_sections_without_model persona_info job
              (flat_map (fun f => extract_document_sections
                                    (pdf_name f) (pdf_pages f) (pdf_outline f))
                        pdf_files)) as (ranked & Hr & _).
  exists ranked. now rewrite Hr.
Qed.

(** The sections of a processed case are the ranked output of some list
    of scored sections. *)
Lemma process_single_test_case_output persona_info job model pdf_files out :
  process_single_test_case persona_info job model pdf_files = Ok (Some out) ->
  exists ranked, out = extracted_sections ranked.
Proof.
  unfold process_single_test_case, bind.
  destruct (nonempty pdf_files); [|discriminate].
  destruct (score_sections _ _ _ _) as [ranked|e]; [|discriminate].
  intros H. injection H as <-. now exists ranked.
Qed.

(** ** Sanity checks of the string model *)

Example split_sentences_sample :
  split_sentences (lit "One.  Two! Three? Four. Five")
  = [lit "One."; lit "Two!"; lit "Three?"; lit "Four."; lit "Five"].
Proof. vm_compute. reflexivity. Qed.

Example split_sentences_trailing_space :
  split_sentences (lit "Done. ") = [lit "Done."; []].
Proof. vm_compute. reflexivity. Qed.

Example split_sentences_no_space : split_sentences (lit "v1.2 is out") = [lit "v1.2 is out"].
Proof. vm_compute. reflexivity. Qed.

Example refined_text_sample :
  refined_text (lit "One.  Two! Three? Four. Five") = lit "One. Two! Three?".
Proof. vm_compute. reflexivity. Qed.

Example findall_words_3_15_sample :
  findall_words_3_15 (lit "abcdefghijklmnopq abc ab a_b1 x") = [lit "abc"; lit "a_b1"].
Proof. vm_compute. reflexivity. Qed.

Example strip_sample : strip (lit "  two words  ") = lit "two words".
Proof. vm_compute. reflexivity. Qed.

Example most_common_nonpositive :
  extract_keywords (lit "cat cat dog") 0 = []
  /\ extract_keywords (lit "cat cat dog") (-1) = [].
Proof. split; vm_compute; reflexivity. Qed.

(* ================================================================== *)
(** * Further properties of the sectioning *)

(** ** The item stream *)

Lemma page_loop_last_page (pages : list page) :
  forall n avg,
    fst (page_loop n avg pages)
    = match last_page_with_lines pages with
      | Some pg => np_mean (line_heights pg)
      | None => avg
      end.
Proof.
  induction pages as [|pg rest IH]; intros n avg; simpl; [reflexivity|].
  specialize (IH (S n) (update_avg avg pg)).
  destruct (page_loop (S n) (update_avg avg pg) rest) as [a its]. simpl in *.
  rewrite IH. destruct (last_page_with_lines rest); [reflexivity|].
  unfold update_avg. now destruct (nonempty (line_heights pg)).
Qed.

(** X1.  The gap threshold of a document: 2.5 times the mean line height of
    its last page that has text lines, and 2.5 times the default 12 when
    no page has any. *)
Theorem gap_threshold_characterised (pages : list page) :
  gap_threshold pages
  = (match last_page_with_lines pages with
     | Some pg => np_mean (line_heights pg)
     | None => 12
     end * 2.5)%Q
  /\ ((forall pg, In pg pages -> line_heights pg = []) ->
      (gap_threshold pages == 30)%Q).
Proof.
  unfold gap_threshold. rewrite page_loop_last_page. split; [reflexivity|].
  intros Hnone.
  assert (H : last_page_with_lines pages = None).
  { induction pages as [|pg rest IH]; simpl; [reflexivity|].
    rewrite IH by (intros p Hp; apply Hnone; now right).
    now rewrite (Hnone pg (or_introl eq_refl)). }
  rewrite H. reflexivity.
Qed.

Lemma gap_threshold_characterised_witness :
  (gap_threshold [[]; [mk_block 1 [] (mk_bbox 0 0 10 10)]] == 30)%Q.
Proof.
  apply (gap_threshold_characterised [[]; [mk_block 1 [] (mk_bbox 0 0 10 10)]]).
  intros pg [<-|[<-|[]]]; reflexivity.
Defined.

Lemma key_le_of_item_lt_false (a b : item) : item_lt b a = false -> key_le a b.
Proof.
  intros H. apply item_lt_false in H. unfold key_le.
  destruct H as [H|[H1 H2]]; [now left | right; split; [now symmetry | exact H2]].
Qed.

Lemma count_headings (outline : list heading) (its : list item) :
  Forall (fun it => is_text it = true) its ->
  length (filter is_heading (its ++ heading_items outline)) = length outline.
Proof.
  intros Hits. rewrite filter_app, length_app.
  replace (filter is_heading its) with (@nil item).
  - unfold heading_items. simpl. induction outline; simpl; [reflexivity|]. now f_equal.
  - induction Hits as [|it its Hit _ IH]; simpl; [reflexivity|].
    unfold is_text in Hit. apply negb_true_iff in Hit. now rewrite Hit.
Qed.

Lemma page_loop_all_text (pages : list page) :
  forall n avg, Forall (fun it => is_text it = true) (snd (page_loop n avg pages)).
Proof.
  induction pages as [|pg rest IH]; intros n avg; simpl; [constructor|].
  specialize (IH (S n) (update_avg avg pg)).
  destruct (page_loop (S n) (update_avg avg pg) rest) as [a its]. simpl in *.
  apply Forall_app. split; [|exact IH].
  eapply Forall_impl; [|apply page_items_page]. now intros it [_ H].
Qed.

Lemma all_content_items_key_sorted (pages : list page) (outline : list heading) :
  StronglySorted key_le (all_content_items pages outline).
Proof.
  unfold all_content_items.
  pose proof (PySortFacts.sort_sorted item_lt
                (snd (page_loop 0 default_line_height pages) ++ heading_items outline)
                item_lt_asym item_lt_negtrans) as H.
  eapply StronglySorted_impl_In; [|exact H].
  intros a b _ _. apply key_le_of_item_lt_false.
Qed.

(** X2.  The sorted stream holds every text item and every heading marker
    exactly once, ordered by page and, within a page, by the top of the
    bounding box. *)
Theorem all_content_items_sorted_permutation (pages : list page) (outline : list heading) :
  Permutation (all_content_items pages outline)
              (snd (page_loop 0 default_line_height pages) ++ heading_items outline)
  /\ StronglySorted key_le (all_content_items pages outline)
  /\ length (filter is_heading (all_content_items pages outline)) = length outline.
Proof.
  split; [apply PySortFacts.sort_perm|].
  split; [apply all_content_items_key_sorted|].
  unfold all_content_items.
  rewrite <- (count_headings outline (page_loop_all_text pages 0 default_line_height)).
  apply Permutation_length.
  (* filtering commutes with the permutation *)
  generalize (PySortFacts.sort_perm item_lt
                (snd (page_loop 0 default_line_height pages) ++ heading_items outline)).
  generalize (PySort.sort item_lt
                (snd (page_loop 0 default_line_height pages) ++ heading_items outline)).
  generalize (snd (page_loop 0 default_line_height pages) ++ heading_items outline).
  intros l l' Hp. induction Hp; simpl.
  - constructor.
  - destruct (is_heading x); [now constructor | assumption].
  - destruct (is_heading x), (is_heading y); try apply Permutation_refl.
    apply perm_swap.
  - now apply Permutation_trans with (filter is_heading l').
Qed.

(** X3.  A heading marker sorts with the top 0: a text block that stands in
    front of a heading of its own page has a top of 0 or less, so every
    block with a positive top is visited behind the headings of its
    page. *)
Theorem text_before_heading_of_its_page (pages : list page) (outline : list heading)
        front t pg bb back th lv :
  all_content_items pages outline = front ++ TextItem t pg bb :: back ->
  In (HeadingMarker th lv pg) back ->
  (y0 bb <= 0)%Q.
Proof.
  intros Hsplit Hin.
  pose proof (all_content_items_key_sorted pages outline) as Hsorted.
  rewrite Hsplit in Hsorted. clear Hsplit.
  assert (H : key_le (TextItem t pg bb) (HeadingMarker th lv pg)).
  { induction front as [|x front IH]; simpl in Hsorted.
    - inversion Hsorted as [|? ? _ Hall]; subst.
      rewrite Forall_forall in Hall. now apply Hall.
    - inversion Hsorted as [|? ? Hrest _]; subst. exact (IH Hrest). }
  destruct H as [H|[_ H]]; simpl in H; [lia | exact H].
Qed.

Lemma text_before_heading_of_its_page_witness : (0 <= 0)%Q.
Proof.
  apply (@text_before_heading_of_its_page
           [[Samples.text_block "alpha" 0 10 10]] Samples.intro_outline
           [] (lit "alpha") 1%Z (mk_bbox 0 0 100 10)
           [HeadingMarker (lit "Intro") (lit "H1") 1] (lit "Intro") (lit "H1")).
  - vm_compute. reflexivity.
  - now left.
Defined.

(** ** Blocks that are no text *)

Lemma text_blocks_idempotent (pg : page) : text_blocks (text_blocks pg) = text_blocks pg.
Proof.
  unfold text_blocks. induction pg as [|b pg IH]; simpl; [reflexivity|].
  destruct (block_type b =? 0)%Z eqn:E; simpl; [|exact IH].
  now rewrite E, IH.
Qed.

Lemma page_loop_text_blocks (pages : list page) :
  forall n avg,
    page_loop n avg (map text_blocks pages) = page_loop n avg pages.
Proof.
  induction pages as [|pg rest IH]; intros n avg; simpl; [reflexivity|].
  assert (Havg : update_avg avg (text_blocks pg) = update_avg avg pg).
  { unfold update_avg, line_heights. now rewrite text_blocks_idempotent. }
  assert (Hits : page_items n (text_blocks pg) = page_items n pg).
  { unfold page_items. now rewrite text_blocks_idempotent. }
  now rewrite Havg, Hits, IH.
Qed.

(** X4.  Blocks of another type than 0 (images) have no influence: neither on
    the texts nor on the line-height average. *)
Theorem non_text_blocks_are_ignored (name : str) (pages : list page)
        (outline : list heading) :
  extract_document_sections name (map text_blocks pages) outline
  = extract_document_sections name pages outline.
Proof.
  unfold extract_document_sections, gap_threshold, all_content_items.
  now rewrite page_loop_text_blocks.
Qed.

(** ** Number of sections *)

Lemma sectioning_document name thr (items : list item) :
  forall prev st,
    Forall (fun s => document s = name) (sectioning name thr prev st items).
Proof.
  induction items as [|it rest IH]; intros prev st; simpl.
  - destruct (nonempty _); repeat constructor.
  - apply Forall_app. split; [|apply IH].
    destruct (_ && _); repeat constructor.
Qed.

Lemma concat_length_nonempty {A} (groups : list (list A)) :
  Forall (fun g => g <> []) groups -> length groups <= length (concat groups).
Proof.
  induction 1 as [|g groups Hg _ IH]; simpl; [lia|].
  rewrite length_app. destruct g; [congruence|]. simpl. lia.
Qed.

Lemma item_texts_length (items : list item) :
  length (item_texts items) = length (filter is_text items).
Proof.
  induction items as [|[t p b | t l p] items IH]; simpl; [reflexivity | |];
    now rewrite IH.
Qed.

(** X5.  Every section carries the file name, and there are at most as many
    sections as text items in the stream. *)
Theorem sections_document_and_count (name : str) (pages : list page)
        (outline : list heading) :
  Forall (fun s => document s = name) (extract_document_sections name pages outline)
  /\ length (extract_document_sections name pages outline)
     <= length (filter is_text (all_content_items pages outline)).
Proof.
  split; [apply sectioning_document|].
  unfold extract_document_sections.
  destruct (sectioning_partition name (gap_threshold pages)
              (all_content_items pages outline) None initial_state)
    as (groups & Hne & Hcat & Hmap).
  simpl in Hcat.
  rewrite <- (length_map section_text), Hmap, length_map, <- item_texts_length, <- Hcat.
  now apply concat_length_nonempty.
Qed.

Lemma page_items_blank (n : nat) (pg : page) :
  item_texts (page_items n pg) = []
  <-> forall b, In b (text_blocks pg) -> strip (block_text b) = [].
Proof.
  unfold page_items. induction (text_blocks pg) as [|b bs IH]; simpl.
  - split; [intros _ b [] | reflexivity].
  - rewrite item_texts_app. split.
    + intros H. apply app_eq_nil in H. destruct H as [Hb Hbs].
      intros b' [<-|Hb'].
      * destruct (strip (block_text b)); [reflexivity | discriminate Hb].
      * now apply IH.
    + intros H. rewrite (H b (or_introl eq_refl)). simpl.
      apply IH. intros b' Hb'. apply H. now right.
Qed.

Lemma page_loop_blank (pages : list page) :
  forall n avg,
    item_texts (snd (page_loop n avg pages)) = []
    <-> forall pg b, In pg pages -> In b (text_blocks pg) -> strip (block_text b) = [].
Proof.
  induction pages as [|pg rest IH]; intros n avg; simpl.
  - split; [intros _ pg b [] | reflexivity].
  - specialize (IH (S n) (update_avg avg pg)).
    destruct (page_loop (S n) (update_avg avg pg) rest) as [a its]. simpl in *.
    rewrite item_texts_app. split.
    + intros H. apply app_eq_nil in H. destruct H as [Hpg Hrest].
      intros pg' b [<-|Hpg'] Hb.
      * now apply (page_items_blank n pg).
      * now apply (proj1 IH Hrest pg').
    + intros H.
      rewrite (proj2 (page_items_blank n pg))
        by (intros b Hb; apply (H pg); [now left | exact Hb]).
      apply IH. intros pg' b Hpg'. apply H. now right.
Qed.

Lemma item_texts_perm (l l' : list item) :
  Permutation l l' -> Permutation (item_texts l) (item_texts l').
Proof. apply Permutation_flat_map. Qed.

(** X6.  A document yields no section exactly when none of its text blocks
    has text left after trimming, whatever the outline. *)
Theorem no_sections_iff_no_text (name : str) (pages : list page)
        (outline : list heading) :
  extract_document_sections name pages outline = []
  <-> forall pg b, In pg pages -> In b (text_blocks pg) -> strip (block_text b) = [].
Proof.
  rewrite <- (page_loop_blank pages 0 default_line_height).
  unfold extract_document_sections.
  destruct (sectioning_partition name (gap_threshold pages)
              (all_content_items pages outline) None initial_state)
    as (groups & Hne & Hcat & Hmap).
  simpl in Hcat.
  assert (Hperm : Permutation (item_texts (all_content_items pages outline))
                              (item_texts (snd (page_loop 0 default_line_height pages)))).
  { unfold all_content_items.
    eapply Permutation_trans; [apply item_texts_perm, PySortFacts.sort_perm|].
    rewrite item_texts_app, item_texts_headings, app_nil_r. apply Permutation_refl. }
  split.
  - intros Hnil. rewrite Hnil in Hmap. destruct groups; [|discriminate].
    simpl in Hcat. rewrite <- Hcat in Hperm.
    now apply Permutation_nil in Hperm.
  - intros Hnil. rewrite Hnil in Hperm. apply Permutation_sym, Permutation_nil in Hperm.
    rewrite Hperm in Hcat.
    destruct groups as [|g groups].
    + now destruct (sectioning _ _ _ _ _).
    + inversion Hne as [|? ? Hg _]; subst. simpl in Hcat.
      apply app_eq_nil in Hcat. destruct Hcat as [Hg' _]. contradiction.
Qed.

Lemma no_sections_iff_no_text_witness :
  extract_document_sections Samples.name
    [[mk_block 0 [mk_line (mk_bbox 0 0 10 10) [lit "  "]] (mk_bbox 0 0 10 10)]]
    Samples.intro_outline
  = [].
Proof.
  apply no_sections_iff_no_text.
  intros pg b [<-|[]] [<-|[]]. vm_compute. reflexivity.
Defined.

(** ** Shapes of the section list *)

Lemma sectioning_quiet_all name thr body :
  forall prev st,
    quiet thr prev body = true ->
    sectioning name thr prev st body
    = sectioning name thr (last_item prev body)
        (mk_state (current_section_title st) (current_section_level st)
                  (current_section_text_parts st ++ item_texts body)
                  (current_section_start_page st))
        [].
Proof.
  intros prev st Hq. rewrite <- (app_nil_r body) at 1.
  now apply sectioning_quiet.
Qed.

(** X7.  Without any heading and without a large gap the whole document is
    one section: titled "Document Start", at level "H0", on page 1
    whatever page its first text is on, holding every text of the
    stream. *)
Theorem quiet_document_is_one_section (name : str) (pages : list page)
        (outline : list heading) :
  all_content_items pages outline <> [] ->
  quiet (gap_threshold pages) None (all_content_items pages outline) = true ->
  extract_document_sections name pages outline
  = [mk_section name 1 (lit "Document Start")
                (join newline (item_texts (all_content_items pages outline)))
                (lit "H0")].
Proof.
  intros Hne Hq. unfold extract_document_sections.
  rewrite sectioning_quiet_all by exact Hq.
  cbn [sectioning current_section_title current_section_level
       current_section_text_parts current_section_start_page initial_state app].
  pose proof (@quiet_item_texts _ _ _ Hq Hne) as Htexts.
  apply nonempty_true in Htexts. rewrite Htexts. reflexivity.
Qed.

Lemma quiet_document_is_one_section_witness :
  extract_document_sections Samples.name
    [[]; [Samples.text_block "alpha" 0 10 10; Samples.text_block "beta" 15 25 10]] []
  = [mk_section Samples.name 1 (lit "Document Start")
                (join newline [lit "alpha"; lit "beta"]) (lit "H0")].
Proof.
  apply (@quiet_document_is_one_section Samples.name
           [[]; [Samples.text_block "alpha" 0 10 10; Samples.text_block "beta" 15 25 10]]
           []).
  - vm_compute. discriminate.
  - vm_compute. reflexivity.
Defined.

(** X8.  A heading that is directly followed by another heading leaves no
    trace: no section is emitted for it and its title and level are
    lost. *)
Theorem heading_without_text_is_dropped name thr pre t1 l1 p1 t2 l2 p2 rest :
  sectioning name thr None initial_state
             (pre ++ HeadingMarker t1 l1 p1 :: HeadingMarker t2 l2 p2 :: rest)
  = sectioning name thr None initial_state (pre ++ HeadingMarker t2 l2 p2 :: rest).
Proof.
  rewrite !sectioning_app_heading.
  now rewrite (sectioning_heading name thr (Some (HeadingMarker t1 l1 p1))).
Qed.

Lemma sectioning_gap_step name thr prev st t p b rest :
  is_section_break thr prev (TextItem t p b) = true ->
  current_section_text_parts st <> [] ->
  sectioning name thr prev st (TextItem t p b :: rest)
  = flush_section name st
    :: sectioning name thr (Some (TextItem t p b))
         (mk_state (lit "Content") (current_section_level st) [t] p) rest.
Proof.
  intros Hbrk Hne. apply nonempty_true in Hne.
  cbn [sectioning next_state]. rewrite Hbrk, Hne. reflexivity.
Qed.

(** X9.  A section opened by a large gap below a heading's section: it is
    titled "Content", keeps the level of that heading and starts on the
    page of the block behind the gap. *)
Theorem gap_section_keeps_heading_level name thr pre t l p body tg pg bg body' rest :
  let h := HeadingMarker t l p in
  let g := TextItem tg pg bg in
  body <> [] ->
  quiet thr (Some h) body = true ->
  large_gap thr (last_item (Some h) body) g = true ->
  quiet thr (Some g) body' = true ->
  starts_with_break thr (last_item (Some g) body') rest = true ->
  exists after,
    sectioning name thr None initial_state (pre ++ h :: body ++ g :: body' ++ rest)
    = sectioning name thr None initial_state pre
      ++ mk_section name p t (join newline (item_texts body)) l
      :: mk_section name pg (lit "Content") (join newline (tg :: item_texts body')) l
      :: after.
Proof.
  cbv zeta. intros Hne Hq Hgap Hq' Hrest.
  rewrite sectioning_app_heading, sectioning_quiet by exact Hq.
  cbn [current_section_title current_section_level current_section_text_parts
       current_section_start_page app].
  rewrite sectioning_gap_step.
  - rewrite sectioning_quiet by exact Hq'.
    cbn [current_section_title current_section_level current_section_text_parts
         current_section_start_page app].
    destruct (@sectioning_closing name thr (last_item (Some (TextItem tg pg bg)) body')
                (mk_state (lit "Content") l (tg :: item_texts body') pg) rest Hrest)
      as [after Hafter]; [discriminate|].
    rewrite Hafter. exists after. reflexivity.
  - unfold is_section_break. rewrite Hgap. apply orb_true_r.
  - simpl. eapply quiet_item_texts; eauto.
Qed.

Lemma gap_section_keeps_heading_level_witness :
  exists after,
    extract_document_sections Samples.name Samples.three_blocks Samples.intro_outline
    = mk_section Samples.name 1 (lit "Intro")
                 (join newline [lit "alpha"; lit "beta"]) (lit "H1")
      :: mk_section Samples.name 1 (lit "Content") (lit "gamma") (lit "H1")
      :: after.
Proof.
  apply (@gap_section_keeps_heading_level Samples.name
           (gap_threshold Samples.three_blocks) [] (lit "Intro") (lit "H1") 1%Z
           [TextItem (lit "alpha") 1 (mk_bbox 0 5 100 15);
            TextItem (lit "beta") 1 (mk_bbox 0 20 100 30)]
           (lit "gamma") 1%Z (mk_bbox 0 70 100 80) [] []).
  - discriminate.
  - vm_compute. reflexivity.
  - vm_compute. reflexivity.
  - reflexivity.
  - reflexivity.
Defined.

(** ** Section texts are trimmed *)

Lemma lstrip_head (s : str) : head_is_space (lstrip s) = false.
Proof.
  induction s as [|c s IH]; simpl; [reflexivity|].
  destruct (is_space c) eqn:E; [exact IH | simpl; exact E].
Qed.

Lemma lstrip_suffix (s : str) : exists pre, s = pre ++ lstrip s.
Proof.
  induction s as [|c s (pre & IH)]; simpl.
  - now exists [].
  - destruct (is_space c).
    + exists (c :: pre). simpl. now f_equal.
    + now exists [].
Qed.

Lemma rstrip_prefix (s : str) : exists suf, s = rstrip s ++ suf.
Proof.
  unfold rstrip. destruct (lstrip_suffix (rev s)) as (pre & E).
  exists (rev pre). rewrite <- rev_app_distr, <- E. now rewrite rev_involutive.
Qed.

Lemma strip_trimmed_ends (s : str) : trimmed_ends (strip s).
Proof.
  unfold trimmed_ends, strip. split.
  - destruct (rstrip_prefix (lstrip s)) as (suf & E).
    pose proof (lstrip_head s) as H. rewrite E in H.
    destruct (rstrip (lstrip s)); [reflexivity | exact H].
  - unfold rstrip. rewrite rev_involutive. apply lstrip_head.
Qed.

Lemma head_is_space_rev_app (p s : str) :
  s <> [] -> head_is_space (rev (p ++ s)) = head_is_space (rev s).
Proof.
  intros Hs. rewrite rev_app_distr. apply head_is_space_app.
  intros H. apply Hs. rewrite <- (rev_involutive s), H. reflexivity.
Qed.

Lemma join_trimmed_ends (parts : list str) :
  Forall (fun p => p <> [] /\ trimmed_ends p) parts ->
  trimmed_ends (join newline parts).
Proof.
  induction 1 as [|p rest [Hp [Hh Hl]] Hrest IH]; [split; reflexivity|].
  destruct rest as [|q rest]; [split; assumption|].
  destruct IH as [_ IHl].
  assert (HJ : join newline (q :: rest) <> []).
  { apply join_nonempty; [discriminate|].
    eapply Forall_impl; [|exact Hrest]. now intros a [Ha _]. }
  rewrite join_cons2. split.
  - now rewrite head_is_space_app.
  - rewrite head_is_space_rev_app, head_is_space_rev_app; trivial.
    intros E. apply app_eq_nil in E. destruct E as [E _]. discriminate E.
Qed.

Lemma in_concat_group {A} (groups : list (list A)) (g : list A) :
  In g groups -> incl g (concat groups).
Proof.
  intros Hg x Hx. apply in_concat. eauto.
Qed.

(** X10.  The text of every section is not empty and starts and ends with a
    character that is no whitespace. *)
Theorem section_text_is_trimmed (name : str) (pages : list page)
        (outline : list heading) :
  Forall (fun s => section_text s <> [] /\ trimmed_ends (section_text s))
         (extract_document_sections name pages outline).
Proof.
  unfold extract_document_sections.
  pose proof (@sectioning_text_nonempty name (gap_threshold pages)
                _ (all_content_items_text_nonempty pages outline)
                None initial_state (Forall_nil _)) as Hnonempty.
  destruct (sectioning_partition name (gap_threshold pages)
              (all_content_items pages outline) None initial_state)
    as (groups & Hne & Hcat & Hmap).
  simpl in Hcat.
  assert (Htrim : Forall trimmed_ends
                         (map section_text
                              (sectioning name (gap_threshold pages) None initial_state
                                          (all_content_items pages outline)))).
  { rewrite Hmap. apply Forall_map, Forall_forall. intros g Hg.
    apply join_trimmed_ends.
    apply Forall_forall. intros t Ht.
    apply (in_concat_group groups g Hg) in Ht. rewrite Hcat in Ht.
    pose proof (all_content_items_trimmed pages outline) as Hall.
    rewrite Forall_forall in Hall.
    destruct (Hall t Ht) as (Hnonempty' & pg & b & _ & _ & ->).
    split; [exact Hnonempty' | apply strip_trimmed_ends]. }
  rewrite Forall_map in Htrim.
  rewrite Forall_forall in Hnonempty, Htrim |- *.
  intros s Hs. split; [now apply Hnonempty | now apply Htrim].
Qed.

(* ================================================================== *)
(** * Further properties of the keyword extraction *)

Lemma Counter_length (ws : list str) : length (Counter ws) <= length ws.
Proof.
  destruct (Counter_keys ws) as (Hnd & Hin & _).
  rewrite <- (length_map fst). apply NoDup_incl_length; [exact Hnd|].
  intros k Hk. now apply Hin.
Qed.

(** X11.  A count of 0 or less gives no keyword; a count that reaches the
    number of candidate words gives every distinct candidate. *)
Theorem extract_keywords_extremes (text : str) (N : Z) :
  ((N <= 0)%Z -> extract_keywords text N = [])
  /\ ((Z.of_nat (length (keyword_candidates text)) <= N)%Z ->
      forall w, In w (extract_keywords text N) <-> In w (keyword_candidates text)).
Proof.
  unfold extract_keywords, most_common. split.
  - intros HN. replace (Z.to_nat N) with 0 by lia. reflexivity.
  - intros HN w.
    destruct (most_common_sorted (keyword_candidates text)) as [Hperm _].
    cbv zeta in Hperm.
    destruct (Counter_keys (keyword_candidates text)) as (_ & Hin & _).
    rewrite firstn_all2.
    + rewrite <- Hin. split; apply Permutation_in, Permutation_map;
        [exact Hperm | apply Permutation_sym, Hperm].
    + rewrite (Permutation_length Hperm).
      pose proof (Counter_length (keyword_candidates text)). lia.
Qed.

Lemma extract_keywords_extremes_witness :
  extract_keywords (lit "The cat sat on the mat. The cat ran.") 0 = []
  /\ (In (lit "ran") (extract_keywords (lit "The cat sat on the mat. The cat ran.") 5)
      <-> In (lit "ran") (keyword_candidates (lit "The cat sat on the mat. The cat ran."))).
Proof.
  destruct (extract_keywords_extremes (lit "The cat sat on the mat. The cat ran.") 0)
    as [Hzero _].
  destruct (extract_keywords_extremes (lit "The cat sat on the mat. The cat ran.") 5)
    as [_ Hall].
  split.
  - apply Hzero. lia.
  - apply Hall. vm_compute. discriminate.
Defined.

(* ================================================================== *)
(** * Further properties of the relevance score *)

Lemma matching_keywords_same_set (kws kws' toks : list str) :
  NoDup kws -> NoDup kws' -> (forall kw, In kw kws <-> In kw kws') ->
  length (matching_keywords kws toks) = length (matching_keywords kws' toks).
Proof.
  intros Hnd Hnd' Hsame. apply Nat.le_antisymm; apply matching_keywords_incl;
    trivial; intros kw; apply Hsame.
Qed.

Lemma short_with_keyword_same_set text (kws kws' : list str) :
  (forall kw, In kw kws <-> In kw kws') ->
  short_with_keyword text kws = short_with_keyword text kws'.
Proof.
  intros Hsame.
  destruct (short_with_keyword text kws) eqn:E, (short_with_keyword text kws') eqn:E';
    trivial.
  - rewrite (short_with_keyword_incl text (kws := kws) (kws' := kws')) in E';
      [discriminate | intros kw; apply Hsame | exact E].
  - rewrite (short_with_keyword_incl text (kws := kws') (kws' := kws)) in E;
      [discriminate | intros kw; apply Hsame | exact E'].
Qed.

(** X12.  The score depends on the query only through its set of keywords:
    neither the order in which the set is walked, nor the order or the
    repetition of the words of the job text matter. *)
Theorem relevance_depends_on_keyword_set :
  (forall (kws kws' toks : list str) (score : Q),
      NoDup kws -> NoDup kws' -> (forall kw, In kw kws <-> In kw kws') ->
      (keyword_loop kws toks score == keyword_loop kws' toks score)%Q)
  /\ (forall text p1 j1 m1 p2 j2 m2,
         (forall kw, In kw (all_keywords p1 j1) <-> In kw (all_keywords p2 j2)) ->
         (embedding_contribution m1 text p1 j1
          == embedding_contribution m2 text p2 j2)%Q ->
         exists s1 s2,
           calculate_relevance text p1 j1 m1 = Ok s1
           /\ calculate_relevance text p2 j2 m2 = Ok s2
           /\ (s1 == s2)%Q).
Proof.
  split.
  - intros kws kws' toks score Hnd Hnd' Hsame.
    rewrite !keyword_loop_spec.
    now rewrite (matching_keywords_same_set toks Hnd Hnd' Hsame).
  - intros text p1 j1 m1 p2 j2 m2 Hsame He.
    destruct (calculate_relevance_terms text p1 j1 m1) as (s1 & Hs1 & E1).
    destruct (calculate_relevance_terms text p2 j2 m2) as (s2 & Hs2 & E2).
    exists s1, s2. split; [exact Hs1|]. split; [exact Hs2|].
    rewrite E1, E2, He, !keyword_term_spec. unfold matches, short_bonus.
    rewrite (matching_keywords_same_set (findall_words (lower text))
               (all_keywords_NoDup p1 j1) (all_keywords_NoDup p2 j2) Hsame).
    rewrite (@short_with_keyword_same_set text _ _ Hsame). reflexivity.
Qed.

Lemma relevance_depends_on_keyword_set_witness :
  exists s1 s2,
    calculate_relevance (lit "the cat sat on the mat") ModelSamples.nobody
                        (lit "cat mat cat") None = Ok s1
    /\ calculate_relevance (lit "the cat sat on the mat") ModelSamples.nobody
                           (lit "Mat, cat!") None = Ok s2
    /\ (s1 == s2)%Q.
Proof.
  destruct relevance_depends_on_keyword_set as [_ H].
  apply H.
  - intros kw. vm_compute. tauto.
  - reflexivity.
Defined.

Lemma matches_le_keywords text persona_info job_text :
  matches text persona_info job_text <= length (all_keywords persona_info job_text).
Proof. unfold matches, matching_keywords. apply filter_length_le. Qed.

Lemma embedding_contribution_range (model : option nlp_model) text persona_info job_text :
  (forall m a b v, model = Some m -> cos_sim m a b = Ok v -> (-1 <= v <= 1)%Q) ->
  (0 <= embedding_contribution model text persona_info job_text <= 10)%Q.
Proof.
  intros Hcos. unfold embedding_contribution.
  destruct model as [m|]; [|split; discriminate].
  unfold embedding_step, bind.
  destruct (encode m (combined_query persona_info job_text)) as [q|]; [|split; discriminate].
  destruct (encode m text) as [t|]; [|split; discriminate].
  destruct (cos_sim m q t) as [v|] eqn:E; [|split; discriminate].
  destruct (Hcos m q t v eq_refl E) as [Hlo Hhi].
  assert (Hhalf : ((v + 1) / 2 == (v + 1) * (1 # 2))%Q) by (unfold Qdiv; reflexivity).
  rewrite Hhalf. split; lra.
Qed.

(** X13.  With cosines in [-1, 1] the score lies between 0 and twice the number
    of keywords plus 11. *)
Theorem relevance_score_bounds text persona_info job_text (model : option nlp_model) :
  (forall m a b v, model = Some m -> cos_sim m a b = Ok v -> (-1 <= v <= 1)%Q) ->
  exists s,
    calculate_relevance text persona_info job_text model = Ok s
    /\ (0 <= s
        <= 2 * inject_Z (Z.of_nat (length (all_keywords persona_info job_text))) + 11)%Q.
Proof.
  intros Hcos.
  destruct (calculate_relevance_terms text persona_info job_text model) as (s & Hs & E).
  exists s. split; [exact Hs|].
  rewrite keyword_term_spec in E.
  pose proof (embedding_contribution_range text persona_info job_text Hcos) as [He He'].
  pose proof (short_bonus_range text persona_info job_text) as [Hb Hb'].
  pose proof (matches_le_keywords text persona_info job_text) as Hm.
  assert (Hq : (0 <= inject_Z (Z.of_nat (matches text persona_info job_text))
                <= inject_Z (Z.of_nat (length (all_keywords persona_info job_text))))%Q).
  { split.
    - change 0%Q with (inject_Z 0). rewrite <- Zle_Qle. lia.
    - rewrite <- Zle_Qle. lia. }
  destruct Hq as [Hq Hq']. rewrite E. split; lra.
Qed.

Lemma relevance_score_bounds_witness :
  exists s,
    calculate_relevance (lit "the cat sat on the mat") ModelSamples.nobody
                        (lit "cat food") (Some ModelSamples.constant_model) = Ok s
    /\ (0 <= s
        <= 2 * inject_Z (Z.of_nat (length (all_keywords ModelSamples.nobody
                                                        (lit "cat food")))) + 11)%Q.
Proof.
  apply (@relevance_score_bounds (lit "the cat sat on the mat") ModelSamples.nobody
           (lit "cat food") (Some ModelSamples.constant_model)).
  intros m a b v Hm Hv. injection Hm as <-. simpl in Hv. injection Hv as <-.
  split; discriminate.
Defined.

(** X14.  A section of fewer than 10 words with an exact keyword match always
    gets the bonus of 1; a section of 10 words or more never does. *)
Theorem short_section_bonus text persona_info job_text model :
  exists s,
    calculate_relevance text persona_info job_text model = Ok s
    /\ (length (split_ws text) < 10 ->
        0 < matches text persona_info job_text ->
        (s == 2 * inject_Z (Z.of_nat (matches text persona_info job_text))
              + embedding_contribution model text persona_info job_text + 1)%Q)
    /\ (10 <= length (split_ws text) ->
        (s == 2 * inject_Z (Z.of_nat (matches text persona_info job_text))
              + embedding_contribution model text persona_info job_text)%Q).
Proof.
  destruct (calculate_relevance_terms text persona_info job_text model) as (s & Hs & E).
  exists s. split; [exact Hs|].
  rewrite keyword_term_spec in E. unfold short_bonus, short_with_keyword in E.
  split.
  - intros Hshort Hpos. apply Nat.ltb_lt in Hshort.
    rewrite Hshort, (matches_bonus text persona_info job_text Hpos) in E. exact E.
  - intros Hlong. apply Nat.ltb_ge in Hlong. rewrite Hlong in E.
    rewrite E. simpl. ring.
Qed.

Lemma short_section_bonus_witness :
  exists s,
    calculate_relevance (lit "the cat sat") ModelSamples.nobody (lit "cat food") None
    = Ok s
    /\ (s == 2 * inject_Z (Z.of_nat (matches (lit "the cat sat") ModelSamples.nobody
                                              (lit "cat food")))
             + embedding_contribution None (lit "the cat sat") ModelSamples.nobody
                                      (lit "cat food") + 1)%Q.
Proof.
  destruct (short_section_bonus (lit "the cat sat") ModelSamples.nobody (lit "cat food")
                                None) as (s & Hs & Hshort & _).
  exists s. split; [exact Hs|].
  apply Hshort; vm_compute; lia.
Defined.

(* ================================================================== *)
(** * Further properties of the refined text *)

Lemma no_boundary_one_sentence (t : str) :
  has_sentence_boundary t = false -> split_sentences t = [t].
Proof.
  unfold split_sentences. induction t as [|c t IH]; intros H; simpl in *; [reflexivity|].
  apply orb_false_elim in H. destruct H as [Hc Ht].
  now rewrite Hc, IH.
Qed.

(** X15.  A text in which no [.], [!] or [?] is followed by whitespace is its
    own refined text, however long it is. *)
Theorem refined_text_without_boundary (t : str) :
  has_sentence_boundary t = false -> refined_text t = t.
Proof.
  intros H. rewrite refined_text_eq, (no_boundary_one_sentence t H). reflexivity.
Qed.

Lemma refined_text_without_boundary_witness :
  refined_text (lit "version 1.2 of the report (draft)")
  = lit "version 1.2 of the report (draft)".
Proof.
  apply refined_text_without_boundary. vm_compute. reflexivity.
Defined.

Lemma join_cons_head (c : ascii) (ps : list str) :
  ps <> [] -> join (lit " ") (cons_head c ps) = c :: join (lit " ") ps.
Proof.
  destruct ps as [|h [|q t]]; intros H; [congruence | reflexivity | reflexivity].
Qed.

Lemma join_single_cons (c : ascii) (ps : list str) :
  ps <> [] -> join (lit " ") ([c] :: ps) = c :: " "%char :: join (lit " ") ps.
Proof. destruct ps; intros H; [congruence | reflexivity]. Qed.

(** Joining the pieces with single spaces never gives more characters
    than the text had. *)
Lemma join_split_length (s : str) :
  (forall b, length (join (lit " ") (split_after_terminal b s)) <= length s)
  /\ (head_is_space s = true ->
      S (length (join (lit " ") (split_after_terminal true s))) <= length s).
Proof.
  induction s as [|c s [IH IHsp]].
  - split; [intros b; cbn; lia | discriminate].
  - split.
    + intros b. cbn [split_after_terminal].
      destruct (b && is_space c).
      { specialize (IH true). cbn [length]. lia. }
      destruct (is_terminal c && head_is_space s) eqn:E.
      * apply andb_prop in E. destruct E as [_ Hsp].
        rewrite join_single_cons by apply split_after_terminal_not_nil.
        specialize (IHsp Hsp). cbn [length]. lia.
      * rewrite join_cons_head by apply split_after_terminal_not_nil.
        specialize (IH false). cbn [length]. lia.
    + intros Hsp. cbn [head_is_space] in Hsp. cbn [split_after_terminal].
      rewrite Hsp. cbn [andb]. specialize (IH true). cbn [length]. lia.
Qed.

Lemma join_cons_length (p : str) (ps : list str) :
  length (join (lit " ") (p :: ps))
  = length p + (if nonempty ps then S (length (join (lit " ") ps)) else 0).
Proof.
  destruct ps as [|q ps]; [cbn; lia|].
  rewrite join_cons2, !length_app. reflexivity.
Qed.

Lemma join_firstn_length (n : nat) (ps : list str) :
  length (join (lit " ") (firstn n ps)) <= length (join (lit " ") ps).
Proof.
  revert n. induction ps as [|p ps IH]; intros n; [now rewrite firstn_nil|].
  destruct n as [|n]; [cbn [firstn join length]; lia|].
  specialize (IH n). cbn [firstn]. rewrite !join_cons_length.
  destruct (firstn n ps) as [|q' ps'] eqn:E; cbn [nonempty]; [lia|].
  destruct ps as [|q ps]; [now rewrite firstn_nil in E|].
  cbn [nonempty]. lia.
Qed.

Lemma without_spaces_join (ps : list str) :
  without_spaces (join (lit " ") ps) = without_spaces (concat ps).
Proof.
  unfold without_spaces. induction ps as [|p [|q ps] IH].
  - reflexivity.
  - simpl. now rewrite app_nil_r.
  - rewrite join_cons2. change (concat (p :: q :: ps)) with (p ++ concat (q :: ps)).
    rewrite !filter_app, IH. reflexivity.
Qed.

Lemma first_sentence_nonempty (t : str) :
  t <> [] -> exists p rest, split_sentences t = p :: rest /\ p <> [].
Proof.
  unfold split_sentences. destruct t as [|c t]; intros H; [congruence|].
  simpl. destruct (is_terminal c && head_is_space t).
  - eexists. eexists. split; [reflexivity | discriminate].
  - pose proof (split_after_terminal_not_nil false t) as Hne.
    destruct (split_after_terminal false t) as [|h r]; [congruence|].
    simpl. eexists. eexists. split; [reflexivity | discriminate].
Qed.

(** X16.  The refined text is a leading excerpt: it is never longer than the
    raw text, apart from whitespace it is a prefix of the raw text, and
    it is empty only when the raw text is. *)
Theorem refined_text_is_leading_excerpt (t : str) :
  length (refined_text t) <= length t
  /\ (exists rest, without_spaces t = without_spaces (refined_text t) ++ rest)
  /\ (refined_text t = [] <-> t = []).
Proof.
  rewrite refined_text_eq. split; [|split].
  - eapply Nat.le_trans; [apply join_firstn_length|].
    apply (proj1 (join_split_length t) false).
  - exists (without_spaces (concat (skipn 3 (split_sentences t)))).
    rewrite without_spaces_join. unfold without_spaces.
    rewrite <- filter_app, <- concat_app, firstn_skipn.
    symmetry. apply split_after_terminal_keeps_text.
  - split.
    + intros H. destruct t as [|c t]; [reflexivity|].
      destruct (@first_sentence_nonempty (c :: t)) as (p & rest & E & Hp);
        [discriminate|].
      rewrite E in H. exfalso. apply Hp.
      destruct rest as [|q rest]; simpl in H; [exact H|].
      destruct p; [reflexivity | discriminate H].
    + intros ->. reflexivity.
Qed.

Lemma refined_text_is_leading_excerpt_witness :
  length (refined_text (lit "One.  Two! Three? Four. Five"))
  <= length (lit "One.  Two! Three? Four. Five").
Proof.
  apply (refined_text_is_leading_excerpt (lit "One.  Two! Three? Four. Five")).
Defined.

(* ================================================================== *)
(** * Further properties of the case pipeline *)

Lemma final_output_fields (l : list ranked_section) :
  forall k, map output_fields (final_output k l) = map ranked_fields l.
Proof.
  induction l as [|s l IH]; intros k; simpl; [reflexivity|].
  now rewrite IH.
Qed.

Lemma extracted_sections_fields (ranked : list ranked_section) :
  Permutation (map output_fields (extracted_sections ranked)) (map ranked_fields ranked).
Proof.
  unfold extracted_sections. rewrite final_output_fields.
  apply Permutation_map. unfold sort_ranked, PySort.sort_reverse.
  apply PySortFacts.sort_perm.
Qed.

(** X17.  Ranking neither drops nor duplicates nor alters a section: document,
    page, title, raw text and keywords of the output are those of the
    scored sections, in another order. *)
Theorem ranking_preserves_sections (ranked : list ranked_section) :
  Permutation (map output_fields (extracted_sections ranked)) (map ranked_fields ranked)
  /\ length (extracted_sections ranked) = length ranked.
Proof.
  split; [apply extracted_sections_fields|].
  rewrite <- (length_map output_fields), <- (length_map ranked_fields).
  apply Permutation_length, extracted_sections_fields.
Qed.

Lemma score_sections_fields persona_info job model (sections : list section) :
  forall ranked,
    score_sections persona_info job model sections = Ok ranked ->
    map ranked_fields ranked
    = map (fun s => (document s, page_number s, section_title s, section_text s,
                     extract_keywords (section_text s) 5))
          sections.
Proof.
  induction sections as [|s rest IH]; intros ranked H.
  - injection H as <-. reflexivity.
  - cbn [score_sections] in H. unfold bind in H.
    destruct (calculate_relevance _ _ _ _) as [score|]; [|discriminate].
    destruct (match model with Some m => encode m (section_text s) | None => Ok [] end);
      [|discriminate].
    destruct (score_sections persona_info job model rest) as [ranked'|]; [|discriminate].
    injection H as <-. simpl. now rewrite (IH ranked' eq_refl).
Qed.

Lemma all_extracted_sections_spec (pdf_files : list pdf) :
  Forall (fun s => section_text s <> []
                   /\ exists f, In f pdf_files /\ document s = pdf_name f)
         (all_extracted_sections pdf_files).
Proof.
  unfold all_extracted_sections. apply Forall_flat_map, Forall_forall. intros f Hf.
  pose proof (sectioning_document (pdf_name f) (gap_threshold (pdf_pages f))
                (all_content_items (pdf_pages f) (pdf_outline f)) None initial_state)
    as Hdoc.
  pose proof (@sectioning_text_nonempty (pdf_name f) (gap_threshold (pdf_pages f))
                _ (all_content_items_text_nonempty (pdf_pages f) (pdf_outline f))
                None initial_state (Forall_nil _)) as Htext.
  unfold extract_document_sections.
  rewrite Forall_forall in Hdoc, Htext |- *. intros s Hs.
  split; [now apply Htext|]. exists f. split; [exact Hf | now apply Hdoc].
Qed.

Lemma extract_keywords_length (text : str) (n : nat) :
  length (extract_keywords text (Z.of_nat n)) <= n.
Proof.
  unfold extract_keywords, most_common. rewrite length_map, Nat2Z.id.
  apply firstn_le_length.
Qed.

(** X18.  Every section of a processed case belongs to one of its files, has a
    raw text that is not empty, and carries the at most 5 keywords
    extracted from that raw text; there is one output section per
    extracted section. *)
Theorem processed_case_sections persona_info job model (pdf_files : list pdf) out :
  process_single_test_case persona_info job model pdf_files = Ok (Some out) ->
  length out = length (all_extracted_sections pdf_files)
  /\ Forall (fun o =>
               o_section_text_raw o <> []
               /\ (exists f, In f pdf_files /\ o_document o = pdf_name f)
               /\ o_keywords o = extract_keywords (o_section_text_raw o) 5
               /\ length (o_keywords o) <= 5)
            out.
Proof.
  unfold process_single_test_case, bind. fold (all_extracted_sections pdf_files).
  destruct (nonempty pdf_files); [|discriminate].
  destruct (score_sections persona_info job model (all_extracted_sections pdf_files))
    as [ranked|] eqn:Hscore; [|discriminate].
  intros H. injection H as <-.
  pose proof (score_sections_fields _ _ _ _ Hscore) as Hfields.
  pose proof (extracted_sections_fields ranked) as Hperm. rewrite Hfields in Hperm.
  split.
  - rewrite <- (length_map output_fields), (Permutation_length Hperm).
    apply length_map.
  - apply Forall_forall. intros o Ho.
    apply (in_map output_fields) in Ho.
    apply (Permutation_in _ Hperm), in_map_iff in Ho.
    destruct Ho as (s & E & Hs).
    pose proof (all_extracted_sections_spec pdf_files) as Hall.
    rewrite Forall_forall in Hall. destruct (Hall s Hs) as [Htext Hdoc].
    unfold output_fields in E. injection E as Ed _ _ Er Ek.
    rewrite <- Er, <- Ek, <- Ed.
    split; [exact Htext|]. split; [exact Hdoc|]. split; [reflexivity|].
    apply (extract_keywords_length (section_text s) 5).
Qed.

Lemma processed_case_sections_witness :
  exists out,
    process_single_test_case ModelSamples.nobody (lit "alpha") None
      [mk_pdf Samples.name Samples.one_page []] = Ok (Some out)
    /\ length out = 2.
Proof.
  eexists. split; [vm_compute; reflexivity|].
  refine (proj1 (@processed_case_sections ModelSamples.nobody (lit "alpha") None
                   [mk_pdf Samples.name Samples.one_page []] _ _)).
  vm_compute. reflexivity.
Defined.

Lemma score_sections_cons persona_info job (m : nlp_model) s rest :
  exists score,
    score_sections persona_info job (Some m) (s :: rest)
    = match encode m (section_text s) with
      | Raise e => Raise e
      | Ok _ =>
          match score_sections persona_info job (Some m) rest with
          | Raise e => Raise e
          | Ok ranked =>
              Ok (mk_ranked (document s) (page_number s) (section_title s) score
                            (section_text s) (extract_keywords (section_text s) 5)
                  :: ranked)
          end
      end.
Proof.
  destruct (calculate_relevance_terms (section_text s) persona_info job (Some m))
    as (score & Hscore & _).
  exists score. cbn [score_sections]. rewrite Hscore. unfold bind.
  destruct (encode m (section_text s)); [|reflexivity].
  now destruct (score_sections persona_info job (Some m) rest).
Qed.

Lemma score_sections_raises persona_info job (m : nlp_model) (sections : list section) :
  (exists e, score_sections persona_info job (Some m) sections = Raise e)
  <-> (exists s e, In s sections /\ encode m (section_text s) = Raise e).
Proof.
  induction sections as [|s rest IH].
  - split; [intros [e H]; discriminate | intros (s & e & [] & _)].
  - destruct (score_sections_cons persona_info job m s rest) as [score ->].
    destruct (encode m (section_text s)) as [v|e0] eqn:Henc.
    + destruct (score_sections persona_info job (Some m) rest) as [ranked|e1].
      * split; [intros [e H]; discriminate|].
        intros (s' & e & [<-|Hs'] & He); [congruence|].
        destruct (proj2 IH) as [e' He']; [eauto | discriminate He'].
      * split; [|intros _; eauto].
        intros _. destruct (proj1 IH) as (s' & e & Hs' & He); [eauto|].
        exists s', e. split; [now right | exact He].
    + split; [|intros _; eauto].
      intros _. exists s, e0. split; [now left | exact Henc].
Qed.

(** Without the index files, a failing encoder makes the section
    pipeline raise. *)
Example broken_model_aborts_case :
  process_single_test_case ModelSamples.nobody (lit "alpha")
    (Some ModelSamples.broken_model) [mk_pdf Samples.name Samples.one_page []]
  = Raise (Exception (lit "model unavailable")).
Proof. vm_compute. reflexivity. Qed.

(* ================================================================== *)
(** * Loading persona and job *)



(** X21.  A persona read from [persona_definition.txt] has the role
    "Unspecified Role", its trimmed text as description and no focus
    areas: the keywords of the scorer are then those of the job text
    alone. *)
Theorem text_persona_adds_no_keywords (d : case_dir) (p : persona) (j : str) :
  persona_definition_json d = None ->
  load_persona_and_job d = Ok (p, j) ->
  role p = Some (lit "Unspecified Role")
  /\ (exists content, persona_definition_txt d = Some content
                      /\ description p = Some (strip content))
  /\ focus_areas p = Some []
  /\ all_keywords p j = nodup str_eq_dec (findall_words (lower j)).
Proof.
  unfold load_persona_and_job, bind. intros -> H.
  destruct (persona_definition_txt d) as [c|]; [|discriminate H].
  destruct (job_to_be_done_txt d) as [jc|]; [|discriminate H].
  injection H as <- <-. split; [reflexivity|]. split; [eauto|].
  split; [reflexivity|].
  unfold all_keywords. simpl. now rewrite app_nil_r.
Qed.

Lemma text_persona_adds_no_keywords_witness :
  all_keywords (mk_persona (Some (lit "a student")) (Some (lit "Unspecified Role"))
                           (Some []))
               (lit "plan a trip")
  = nodup str_eq_dec (findall_words (lower (lit "plan a trip"))).
Proof.
  apply (@text_persona_adds_no_keywords
           (mk_case_dir (lit "input/case1") None (Some (lit " a student "))
                        (Some (lit "  plan a trip  ")))).
  - reflexivity.
  - vm_compute. reflexivity.
Defined.

(* ================================================================== *)
(** * The similarity index *)

Lemma scoring_loop_spec persona_info job model (sections : list section) :
  forall ranked embeddings,
    scoring_loop persona_info job model sections = Ok (ranked, embeddings) ->
    score_sections persona_info job model sections = Ok ranked
    /\ map r_section_text_raw ranked = map section_text sections
    /\ match model with
       | Some m => Forall2 (fun s e => encode m (r_section_text_raw s) = Ok e)
                           ranked embeddings
       | None => embeddings = []
       end.
Proof.
  induction sections as [|s rest IH]; intros ranked embeddings H.
  - injection H as <- <-. split; [reflexivity|]. split; [reflexivity|].
    destruct model; [constructor | reflexivity].
  - cbn [scoring_loop score_sections] in *. unfold bind in *.
    destruct (calculate_relevance _ _ _ _) as [score|]; [|discriminate].
    destruct model as [m|].
    + destruct (encode m (section_text s)) as [e|] eqn:Henc; [|discriminate].
      destruct (scoring_loop persona_info job (Some m) rest) as [[ranked' embs']|];
        [|discriminate].
      injection H as <- <-.
      destruct (IH ranked' embs' eq_refl) as (Hs & Hraw & Hall).
      rewrite Hs. split; [reflexivity|]. split; [simpl; now rewrite Hraw|].
      simpl. constructor; [exact Henc | exact Hall].
    + destruct (scoring_loop persona_info job None rest) as [[ranked' embs']|];
        [|discriminate].
      injection H as <- <-.
      destruct (IH ranked' embs' eq_refl) as (Hs & Hraw & Hall).
      rewrite Hs. split; [reflexivity|]. split; [simpl; now rewrite Hraw|].
      simpl. exact Hall.
Qed.

(** X22.  The similarity index is aligned: with a model there is exactly one
    embedding per scored section, namely that of its raw text, and the
    sections are stored in extraction order, before the sort; without a
    model there is no embedding at all. *)
Theorem similarity_index_is_aligned persona_info job model (sections : list section)
        ranked embeddings :
  scoring_loop persona_info job model sections = Ok (ranked, embeddings) ->
  map r_section_text_raw ranked = map section_text sections
  /\ match model with
     | Some m => length embeddings = length ranked
                 /\ Forall2 (fun s e => encode m (r_section_text_raw s) = Ok e)
                            ranked embeddings
     | None => embeddings = []
     end.
Proof.
  intros H. destruct (scoring_loop_spec _ _ _ _ H) as (_ & Hraw & Hall).
  split; [exact Hraw|]. destruct model as [m|]; [|exact Hall].
  split; [|exact Hall]. symmetry. eapply Forall2_length. exact Hall.
Qed.

Lemma similarity_index_is_aligned_witness :
  match scoring_loop ModelSamples.nobody (lit "alpha") (Some ModelSamples.constant_model)
                     (extract_document_sections Samples.name Samples.one_page []) with
  | Ok (ranked, embeddings) => length embeddings = length ranked
  | Raise _ => False
  end.
Proof.
  destruct (scoring_loop ModelSamples.nobody (lit "alpha")
              (Some ModelSamples.constant_model)
              (extract_document_sections Samples.name Samples.one_page []))
    as [[ranked embeddings]|e] eqn:H.
  - exact (proj1 (proj2 (similarity_index_is_aligned _ _ _ _ H))).
  - vm_compute in H. discriminate H.
Defined.

(* ================================================================== *)
(** * A case with its files *)

(** X23.  A case gives an output only when persona and job could be loaded,
    there is a PDF file and the output file could be written; the output
    then names the files, echoes persona and job, and holds the sections
    of the section pipeline.  When loading fails the case is skipped
    without an exception, whatever the model does. *)
Theorem case_output_requires_inputs (d : case_dir) (model : option nlp_model)
        (pdf_files : list pdf) (index_saved output_saved : result unit) :
  (forall out,
      process_single_test_case_io d model pdf_files index_saved output_saved
      = Ok (Some out) ->
      pdf_files <> []
      /\ (exists u, output_saved = Ok u)
      /\ input_documents out = map pdf_name pdf_files
      /\ load_persona_and_job d = Ok (metadata_persona out, metadata_job_to_be_done out)
      /\ process_single_test_case (metadata_persona out) (metadata_job_to_be_done out)
                                  model pdf_files
         = Ok (Some (output_extracted_sections out)))
  /\ ((exists e, load_persona_and_job d = Raise e) ->
      process_single_test_case_io d model pdf_files index_saved output_saved = Ok None).
Proof.
  unfold process_single_test_case_io. split.
  - intros out H.
    destruct (load_persona_and_job d) as [[p j]|]; [|discriminate H].
    destruct pdf_files as [|f files]; [discriminate H|]. cbn [nonempty] in H.
    unfold bind in H.
    destruct (scoring_loop p j model (all_extracted_sections (f :: files)))
      as [[ranked embs]|] eqn:Hloop; [|discriminate H].
    destruct (if is_some model && nonempty (snd (ranked, embs)) then index_saved
              else Ok tt); [|discriminate H].
    destruct output_saved as [u|]; [|discriminate H].
    injection H as <-.
    cbn [input_documents metadata_persona metadata_job_to_be_done
         output_extracted_sections fst].
    destruct (scoring_loop_spec _ _ _ _ Hloop) as (Hscore & _).
    split; [discriminate|]. split; [eauto|]. split; [reflexivity|].
    split; [reflexivity|].
    unfold process_single_test_case. cbv zeta.
    fold (all_extracted_sections (f :: files)). cbn [nonempty].
    now rewrite Hscore.
  - intros [e ->]. reflexivity.
Qed.

Lemma case_output_requires_inputs_witness :
  process_single_test_case_io
    (mk_case_dir (lit "input/case1") None None (Some (lit "plan a trip")))
    (Some ModelSamples.broken_model) [mk_pdf Samples.name Samples.one_page []]
    (Ok tt) (Ok tt)
  = Ok None.
Proof.
  apply case_output_requires_inputs.
  eexists. vm_compute. reflexivity.
Defined.

Lemma Forall2_In_left {A B} (P : A -> B -> Prop) (l : list A) (l' : list B) (x : A) :
  Forall2 P l l' -> In x l -> exists y, P x y.
Proof.
  induction 1 as [|a b l l' Hab _ IH]; intros Hx; [destruct Hx|].
  destruct Hx as [<-|Hx]; [eauto | now apply IH].
Qed.

Lemma scoring_loop_raises persona_info job (m : nlp_model) (sections : list section)
      (s : section) (e : exn) :
  In s sections -> encode m (section_text s) = Raise e ->
  exists e', scoring_loop persona_info job (Some m) sections = Raise e'.
Proof.
  intros Hs He.
  destruct (scoring_loop persona_info job (Some m) sections) as [[ranked embs]|e']
    eqn:Hloop; [|eauto].
  exfalso. destruct (scoring_loop_spec _ _ _ _ Hloop) as (_ & Hraw & Hall).
  apply (in_map section_text) in Hs. rewrite <- Hraw in Hs.
  apply in_map_iff in Hs. destruct Hs as (r & Er & Hr).
  destruct (@Forall2_In_left _ _ _ _ _ r Hall Hr) as [v Hv].
  rewrite Er, He in Hv. discriminate Hv.
Qed.

Lemma embedding_contribution_raise (m : nlp_model) text persona_info job_text e :
  encode m text = Raise e ->
  embedding_contribution (Some m) text persona_info job_text = 0%Q.
Proof.
  intros He. unfold embedding_contribution, embedding_step, bind.
  destruct (encode m (combined_query persona_info job_text)); [|reflexivity].
  now rewrite He.
Qed.

(** X19.  An encoder that raises on the text of a section is swallowed
    by the scorer, which still returns the keyword term plus the bonus
    for that section, but it is not swallowed by the case: the embedding
    computed for the similarity index is not guarded, and the function
    raises whatever the outcome of the file writes would be. *)
Theorem encoder_failure_aborts_case (d : case_dir) (m : nlp_model)
        (pdf_files : list pdf) (index_saved output_saved : result unit)
        (p : persona) (j : str) (s : section) (e : exn) :
  load_persona_and_job d = Ok (p, j) ->
  In s (all_extracted_sections pdf_files) ->
  encode m (section_text s) = Raise e ->
  (exists score,
      calculate_relevance (section_text s) p j (Some m) = Ok score
      /\ (score == keyword_term (section_text s) p j
                   + short_bonus (section_text s) p j)%Q)
  /\ exists e',
      process_single_test_case_io d (Some m) pdf_files index_saved output_saved
      = Raise e'.
Proof.
  intros Hload Hs He. split.
  - destruct (calculate_relevance_terms (section_text s) p j (Some m))
      as (score & Hscore & E).
    exists score. split; [exact Hscore|].
    rewrite (embedding_contribution_raise m (section_text s) p j He) in E.
    rewrite E. ring.
  - unfold process_single_test_case_io. rewrite Hload.
    destruct pdf_files as [|f files]; [destruct Hs|]. cbn [nonempty].
    destruct (@scoring_loop_raises p j m _ s e Hs He) as [e' ->].
    exists e'. reflexivity.
Qed.

Lemma encoder_failure_aborts_case_witness :
  exists e',
    process_single_test_case_io
      (mk_case_dir (lit "input/case1") None (Some (lit " a student "))
                   (Some (lit "plan a trip")))
      (Some ModelSamples.broken_model) [mk_pdf Samples.name Samples.one_page []]
      (Ok tt) (Ok tt)
    = Raise e'.
Proof.
  apply (@encoder_failure_aborts_case
           (mk_case_dir (lit "input/case1") None (Some (lit " a student "))
                        (Some (lit "plan a trip")))
           ModelSamples.broken_model [mk_pdf Samples.name Samples.one_page []]
           (Ok tt) (Ok tt)
           (mk_persona (Some (lit "a student")) (Some (lit "Unspecified Role"))
                       (Some []))
           (lit "plan a trip")
           (mk_section Samples.name 1 (lit "Document Start") (lit "alpha") (lit "H0"))
           (Exception (lit "model unavailable"))).
  - vm_compute. reflexivity.
  - vm_compute. now left.
  - reflexivity.
Defined.

(* ================================================================== *)
(** * Similar sections *)

Lemma stable_argsort_spec : argsort_spec stable_argsort.
Proof.
  intros l. unfold stable_argsort. split; [apply PySortFacts.sort_perm|].
  pose proof (@PySortFacts.sort_sorted nat
                (fun i j => Qltb (nth i l 0%Q) (nth j l 0%Q)) (seq 0 (length l))) as H.
  eapply StronglySorted_impl_In; [|apply H].
  - intros a b _ _ Hab. simpl in Hab. now apply Qltb_ge in Hab.
  - intros a b Hab. apply Qltb_lt in Hab. apply Qltb_ge. now apply Qlt_le_weak.
  - intros a b c Hab Hbc. apply Qltb_ge in Hab, Hbc. apply Qltb_ge.
    now apply Qle_trans with (nth b l 0%Q).
Qed.

Lemma cos_sim_row_length (m : nlp_model) (q : tensor) (embeddings : list tensor) :
  forall cs, cos_sim_row m q embeddings = Ok cs -> length cs = length embeddings.
Proof.
  induction embeddings as [|e rest IH]; intros cs H.
  - injection H as <-. reflexivity.
  - cbn [cos_sim_row] in H. unfold bind in H.
    destruct (cos_sim m q e); [|discriminate].
    destruct (cos_sim_row m q rest) as [cs'|]; [|discriminate].
    injection H as <-. simpl. now rewrite (IH cs' eq_refl).
Qed.

Lemma similar_loop_spec (all_sections : list ranked_section) (cos_scores : list Q)
      (query_text : str) (top_results : list nat) :
  length cos_scores = length all_sections ->
  Forall (fun idx => idx < length all_sections) top_results ->
  similar_loop all_sections cos_scores query_text top_results
  = Ok (flat_map (entry_of all_sections cos_scores query_text) top_results).
Proof.
  intros Hlen. induction 1 as [|idx rest Hidx _ IH]; [reflexivity|].
  cbn [similar_loop flat_map]. unfold entry_of at 1, other_text, similar_of.
  destruct (nth_error all_sections idx) as [s|] eqn:Hs.
  - destruct (negb (str_eqb (r_section_text_raw s) query_text)).
    + destruct (nth_error cos_scores idx) as [c|] eqn:Hc.
      * rewrite IH. reflexivity.
      * apply nth_error_None in Hc. lia.
    + exact IH.
  - apply nth_error_None in Hs. lia.
Qed.

Lemma entry_of_In all_sections cos_scores query_text idx r :
  In r (entry_of all_sections cos_scores query_text idx)
  <-> other_text all_sections query_text idx = true
      /\ similar_of all_sections cos_scores idx = Some r.
Proof.
  unfold entry_of.
  destruct (other_text all_sections query_text idx);
    [|split; [intros [] | intros [H _]; discriminate H]].
  destruct (similar_of all_sections cos_scores idx) as [r'|].
  - simpl. split; [intros [<-|[]]; auto | intros [_ H]; injection H; auto].
  - split; [intros [] | intros [_ H]; discriminate H].
Qed.

Lemma entry_of_score all_sections cos_scores query_text idx r :
  In r (entry_of all_sections cos_scores query_text idx) ->
  sim_score r = nth idx cos_scores 0%Q.
Proof.
  intros H. apply entry_of_In in H. destruct H as [_ H].
  unfold similar_of in H.
  destruct (nth_error all_sections idx); [|discriminate].
  destruct (nth_error cos_scores idx) as [c|] eqn:Hc; [|discriminate].
  injection H as <-. simpl. symmetry. now apply nth_error_nth.
Qed.

Lemma entry_of_length all_sections cos_scores query_text idx :
  length (entry_of all_sections cos_scores query_text idx) <= 1.
Proof.
  unfold entry_of. destruct (other_text _ _ _); [|simpl; lia].
  destruct (similar_of _ _ _); simpl; lia.
Qed.

Lemma flat_map_entries_length all_sections cos_scores query_text (top : list nat) :
  length (flat_map (entry_of all_sections cos_scores query_text) top) <= length top.
Proof.
  induction top as [|idx top IH]; simpl; [lia|].
  rewrite length_app.
  pose proof (entry_of_length all_sections cos_scores query_text idx). lia.
Qed.

Lemma flat_map_entries_sorted all_sections cos_scores query_text (top : list nat) :
  StronglySorted (fun i j => (nth j cos_scores 0 <= nth i cos_scores 0)%Q) top ->
  StronglySorted (fun a b => (sim_score b <= sim_score a)%Q)
                 (flat_map (entry_of all_sections cos_scores query_text) top).
Proof.
  induction 1 as [|idx top Htop IH Hidx]; simpl; [constructor|].
  pose proof (entry_of_length all_sections cos_scores query_text idx) as Hlen.
  destruct (entry_of all_sections cos_scores query_text idx) as [|r [|r' l]] eqn:E;
    [exact IH | | simpl in Hlen; lia].
  simpl. constructor; [exact IH|].
  apply Forall_forall. intros r' Hr'. apply in_flat_map in Hr'.
  destruct Hr' as (j & Hj & Hr').
  rewrite (@entry_of_score all_sections cos_scores query_text idx r)
    by (rewrite E; now left).
  rewrite (entry_of_score _ _ _ _ _ Hr').
  rewrite Forall_forall in Hidx. now apply Hidx.
Qed.

Lemma nth_map_opp (i : nat) (l : list Q) : nth i (map Qopp l) 0%Q = Qopp (nth i l 0%Q).
Proof. exact (map_nth Qopp l 0%Q i). Qed.

Lemma argsort_descending (argsort : list Q -> list nat) (cs : list Q) :
  argsort_spec argsort ->
  StronglySorted (fun i j => (nth j cs 0 <= nth i cs 0)%Q) (argsort (map Qopp cs)).
Proof.
  intros Hspec. destruct (Hspec (map Qopp cs)) as [_ Hsorted].
  eapply StronglySorted_impl_In; [|exact Hsorted].
  intros a b _ _ Hab. simpl in Hab. rewrite !nth_map_opp in Hab.
  now apply Qopp_le_compat in Hab; rewrite !Qopp_involutive in Hab.
Qed.

Lemma StronglySorted_firstn {A} (R : A -> A -> Prop) (n : nat) (l : list A) :
  StronglySorted R l -> StronglySorted R (firstn n l).
Proof.
  intros H. revert n. induction H as [|x l Hl IH Hx]; intros n.
  - rewrite firstn_nil. constructor.
  - destruct n as [|n]; simpl; constructor; [apply IH|].
    rewrite Forall_forall in Hx |- *. intros y Hy. apply Hx.
    rewrite <- (firstn_skipn n l). apply in_or_app. now left.
Qed.

(** X24.  With an aligned index, [find_similar] never hits an index error: it
    answers with at most 5 sections, taken from the 5 indices of highest
    cosine, none of which has the query as its raw text, each with its
    cosine as score, in order of non-increasing score; every section
    outside those 5 indices has a cosine that is not higher. *)
Theorem find_similar_spec (argsort : list Q -> list nat) (m : nlp_model)
        (all_sections : list ranked_section) (all_embeddings : list tensor)
        (query_text : str) (query_embedding : tensor) (cos_scores : list Q) :
  argsort_spec argsort ->
  length all_sections = length all_embeddings ->
  encode m query_text = Ok query_embedding ->
  cos_sim_row m query_embedding all_embeddings = Ok cos_scores ->
  let top := firstn 5 (argsort (map Qopp cos_scores)) in
  exists similar,
    find_similar argsort (Some m) (Some all_sections) (Some all_embeddings) query_text
    = Ok (SimilarSections similar)
    /\ length similar <= 5
    /\ NoDup top
    /\ (forall r, In r similar
                  <-> exists idx, In idx top
                                  /\ other_text all_sections query_text idx = true
                                  /\ similar_of all_sections cos_scores idx = Some r)
    /\ StronglySorted (fun a b => (sim_score b <= sim_score a)%Q) similar
    /\ (forall i j, In i top -> j < length all_sections -> ~ In j top ->
                    (nth j cos_scores 0 <= nth i cos_scores 0)%Q).
Proof.
  intros Hspec Hlen Henc Hcos. cbv zeta.
  pose proof (cos_sim_row_length _ _ _ Hcos) as Hcs.
  set (order := argsort (map Qopp cos_scores)).
  destruct (Hspec (map Qopp cos_scores)) as [Hperm _]. fold order in Hperm.
  rewrite length_map in Hperm.
  assert (Hvalid : Forall (fun idx => idx < length all_sections) (firstn 5 order)).
  { apply Forall_forall. intros idx Hidx.
    assert (Hin : In idx order).
    { rewrite <- (firstn_skipn 5 order). apply in_or_app. now left. }
    apply (Permutation_in _ Hperm), in_seq in Hin. lia. }
  assert (Hnd : NoDup order).
  { apply (Permutation_NoDup (Permutation_sym Hperm)), seq_NoDup. }
  exists (flat_map (entry_of all_sections cos_scores query_text) (firstn 5 order)).
  split.
  { unfold find_similar, bind. rewrite Henc, Hcos. fold order.
    rewrite similar_loop_spec; [reflexivity | lia | exact Hvalid]. }
  split.
  { eapply Nat.le_trans; [apply flat_map_entries_length|]. apply firstn_le_length. }
  split.
  { rewrite <- (firstn_skipn 5 order) in Hnd. now apply NoDup_app_remove_r in Hnd. }
  split.
  { intros r. rewrite in_flat_map. split.
    - intros (idx & Hidx & Hr). apply entry_of_In in Hr. exists idx. tauto.
    - intros (idx & Hidx & Ho & Hs). exists idx. split; [exact Hidx|].
      apply entry_of_In. tauto. }
  split.
  { apply flat_map_entries_sorted, StronglySorted_firstn.
    now apply argsort_descending. }
  intros i j Hi Hj Hnot.
  assert (Hin : In j order).
  { apply (Permutation_in _ (Permutation_sym Hperm)), in_seq. lia. }
  rewrite <- (firstn_skipn 5 order) in Hin. apply in_app_or in Hin.
  destruct Hin as [Hin|Hin]; [contradiction|].
  pose proof (argsort_descending cos_scores Hspec) as Hsorted. fold order in Hsorted.
  rewrite <- (firstn_skipn 5 order) in Hsorted.
  exact (StronglySorted_app_inv _ _ Hsorted i j Hi Hin).
Qed.

Lemma find_similar_spec_witness :
  exists similar,
    find_similar stable_argsort (Some ModelSamples.constant_model)
                 (Some ScoreSamples.five) (Some [[1%Q]; [1%Q]; [1%Q]; [1%Q]; [1%Q]])
                 (lit "B")
    = Ok (SimilarSections similar)
    /\ length similar <= 5.
Proof.
  destruct (@find_similar_spec stable_argsort ModelSamples.constant_model
              ScoreSamples.five [[1%Q]; [1%Q]; [1%Q]; [1%Q]; [1%Q]] (lit "B")
              [1%Q] [1%Q; 1%Q; 1%Q; 1%Q; 1%Q])
    as (similar & H & Hlen & _).
  - apply stable_argsort_spec.
  - reflexivity.
  - reflexivity.
  - reflexivity.
  - exists similar. split; [exact H | exact Hlen].
Defined.

(** The query's own section is filtered after the cut to 5: of 6 stored
    sections with equal cosines only 4 are returned when the query is
    among the first 5. *)
Example find_similar_filters_after_cut :
  let six := ScoreSamples.scored "F" 0 :: ScoreSamples.five in
  match find_similar stable_argsort (Some ModelSamples.constant_model) (Some six)
                     (Some [[1%Q]; [1%Q]; [1%Q]; [1%Q]; [1%Q]; [1%Q]]) (lit "A") with
  | Ok (SimilarSections similar) => map sim_section_title similar
                                    = [lit "F"; lit "s1"; lit "s3"; lit "B"]
  | _ => False
  end.
Proof. vm_compute. reflexivity. Qed.
